(** * RespiroGuard: the client side of the streaming status channel

    A shallow embedding of the step state machine of
    [frontend/components/LiveAgentStatus.tsx] ([useAgentStatus]:
    [updateStep], [resetSteps]) and of the stream consumer of
    [frontend/app/page.tsx] ([fetchRiskData], [handleManualSubmit]),
    followed by the properties of the status-channel specification that
    concern them. *)

From Stdlib Require Import NArith QArith String Ascii List Lia.
From Stdlib.Strings Require Import Byte.
From stdpp Require Import base list option.

Set Warnings "-register-all".

Local Open Scope N_scope.
Local Open Scope nat_scope.

(** ** JavaScript strings

    A JavaScript string is a sequence of 16-bit code units; [js] turns an
    ASCII literal of this file into one. *)

Definition jsstring := list N.

Definition js (s : string) : jsstring :=
  map N_of_ascii (list_ascii_of_string s).

(** The string without a code unit. *)
Definition emptyString : jsstring := [].

(** [s.startsWith(prefix)] *)
Fixpoint startsWith (prefix s : jsstring) : bool :=
  match prefix, s with
  | [], _ => true
  | _ :: _, [] => false
  | p :: prefix', c :: s' => (p =? c)%N && startsWith prefix' s'
  end.

(** [s.slice(n)] for [n >= 0] *)
Definition slice (n : nat) (s : jsstring) : jsstring := drop n s.

(** [s.split(sep)] for a separator of one code unit: the result always has
    at least one element, the text after the last separator. *)
Fixpoint split (sep : N) (s : jsstring) : list jsstring :=
  match s with
  | [] => [[]]
  | c :: s' =>
      if (c =? sep)%N then [] :: split sep s'
      else match split sep s' with
           | [] => [[c]]
           | l :: ls => (c :: l) :: ls
           end
  end.

(** The code units [String.prototype.trim] strips: WhiteSpace and
    LineTerminator of ECMAScript. *)
Definition isWhiteSpace (c : N) : bool :=
  ((9 <=? c) && (c <=? 13) || (c =? 32) || (c =? 160) || (c =? 5760)
   || (8192 <=? c) && (c <=? 8202) || (c =? 8232) || (c =? 8233)
   || (c =? 8239) || (c =? 8287) || (c =? 12288) || (c =? 65279))%N.

Fixpoint trimStart (s : jsstring) : jsstring :=
  match s with
  | c :: s' => if isWhiteSpace c then trimStart s' else s
  | [] => []
  end.

Definition trimEnd (s : jsstring) : jsstring := rev (trimStart (rev s)).

Definition trim (s : jsstring) : jsstring := trimEnd (trimStart s).

(** ** JSON values

    What [JSON.parse] returns.  A number keeps its lexeme: the client never
    inspects one.  An object keeps its members in source order, and a
    property read takes the last member of that name, as [JSON.parse] lets a
    later duplicate overwrite an earlier one. *)

Inductive json : Type :=
| JNull
| JBool (b : bool)
| JNum (lexeme : jsstring)
| JStr (s : jsstring)
| JArr (items : list json)
| JObj (members : list (jsstring * json)).

(** A JavaScript value read from parsed data: [None] is [undefined]. *)
Definition jsvalue := option json.

Fixpoint member (key : jsstring) (members : list (jsstring * json)) : jsvalue :=
  match members with
  | [] => None
  | (k, v) :: rest =>
      match member key rest with
      | Some v' => Some v'
      | None => if bool_decide (k = key) then Some v else None
      end
  end.

(** [v === 'literal'] *)
Definition strictEq (v : jsvalue) (literal : jsstring) : bool :=
  match v with
  | Some (JStr s) => bool_decide (s = literal)
  | _ => false
  end.

(** ** Steps (LiveAgentStatus.tsx) *)

Inductive Status := pending | active | completed.

#[global] Instance Status_eq_dec : EqDecision Status.
Proof. solve_decision. Defined.

Record Step := { id : jsstring; name : jsstring; status : Status }.

(** The second parameter of [updateStep] has type ['active' | 'completed']. *)
Inductive NewStatus := to_active | to_completed.

Definition status_of (st : NewStatus) : Status :=
  match st with to_active => active | to_completed => completed end.

(** [{ ...step, status }] *)
Definition with_status (st : Status) (step : Step) : Step :=
  {| id := id step; name := name step; status := st |}.

Definition initialSteps : list Step :=
  [ {| id := js "fetch_enviro_data"; name := js "Fetching Data..."; status := pending |};
    {| id := js "analyze_risk"; name := js "Analyzing Pollen Risks..."; status := pending |};
    {| id := js "generate_advice"; name := js "Calculating Safe Duration..."; status := pending |};
    {| id := js "done"; name := js "Done."; status := pending |} ].

(** [steps.findIndex(s => s.id === stepId)]; [None] stands for [-1]. *)
Definition findIndex (stepId : jsstring) (steps : list Step) : option nat :=
  fst <$> list_find (λ s, id s = stepId) steps.

(** One turn of [for (let i = 0; i < stepIndex; i++)]: a step before the
    target that is not yet completed is replaced by a completed copy.
    [i] is below [stepIndex], itself an index of the list, so the read
    [newSteps[i]] is always in range. *)
Definition markCompleted (newSteps : list Step) (i : nat) : list Step :=
  match newSteps !! i with
  | Some s =>
      if bool_decide (status s ≠ completed)
      then <[i := with_status completed s]> newSteps
      else newSteps
  | None => newSteps
  end.

(** The updater that [updateStep] passes to [setSteps]. *)
Definition updateStep (stepId : jsstring) (st : NewStatus)
    (prevSteps : list Step) : list Step :=
  let newSteps := prevSteps in
  match findIndex stepId newSteps with
  | Some stepIndex =>
      let newSteps := alter (with_status (status_of st)) stepIndex newSteps in
      foldl markCompleted newSteps (seq 0 stepIndex)
  | None => newSteps
  end.


(** *** Sequences of calls

    The step lists the client can reach are those a sequence of
    [updateStep] calls builds from a list. *)

Definition replay (calls : list (jsstring * NewStatus)) (steps : list Step)
    : list Step :=
  foldl (λ steps call, updateStep call.1 call.2 steps) steps calls.

(** The sequences of calls in which every [updateStep(id, 'active')] aims
    at or behind the target of every call before it; [high] is the
    greatest target so far.  Calls with ['completed'] are free to come
    late, twice or out of order, and calls with an unknown id do not
    count. *)
Fixpoint starts_in_order (high : nat) (steps : list Step)
    (calls : list (jsstring * NewStatus)) : bool :=
  match calls with
  | [] => true
  | (stepId, st) :: calls' =>
      match findIndex stepId steps with
      | None => starts_in_order high steps calls'
      | Some i =>
          match st with
          | to_active => (high <=? i) && starts_in_order i steps calls'
          | to_completed => starts_in_order (high `max` i) steps calls'
          end
      end
  end.

Definition at_most_one_active (steps : list Step) : Prop :=
  ∀ i j si sj,
    steps !! i = Some si → steps !! j = Some sj →
    status si = active → status sj = active → i = j.

Definition earlier_completed (steps : list Step) : Prop :=
  ∀ i j si sj,
    steps !! i = Some si → steps !! j = Some sj →
    j < i → status si ≠ pending → status sj = completed.

(** Steps before index [n] are completed and steps after it are pending. *)
Definition progress_at (n : nat) (steps : list Step) : Prop :=
  ∀ j s, steps !! j = Some s →
    (j < n → status s = completed) ∧ (n < j → status s = pending).

(** The [type] of the record for which the page calls [updateStep] with
    a given status. *)
Definition event_type (st : NewStatus) : jsstring :=
  match st with
  | to_active => js "step_start"
  | to_completed => js "step_complete"
  end.

(** ** The page's state (page.tsx)

    The [useState] cells that [fetchRiskData] and [handleManualSubmit] read
    or write ([isChatOpen] and [useManualInput] are neither), the step list
    of [useAgentStatus], and two logs of what the page does to its
    surroundings: the bodies it POSTs and the values it hands to
    [console.error].  In [riskData] the initial [null] is [Some JNull]; in
    [error], [None] is [null]. *)

Record Request := { location : jsstring; allergies : list jsstring }.

(** What the [try] block around [JSON.parse] can throw: the [SyntaxError]
    of [JSON.parse], the [TypeError] of reading a property of [null], and
    [new Error(data.message)]. *)
Inductive ParseError :=
| SyntaxError
| TypeError
| ServerError (message : jsvalue).

(** What the outer [try] block can throw: an [Error] with its message, or
    a rejection value that is not an [Error]. *)
Inductive RunError :=
| Error (message : jsstring)
| NotAnError.

Record World := {
  riskData : jsvalue;
  loading : bool;
  error : option jsstring;
  manualLocation : jsstring;
  manualAllergies : jsstring;
  isStreaming : bool;
  steps : list Step;
  requests : list Request;
  console : list ParseError;
}.

(** The page as first rendered. *)
Definition initialWorld : World :=
  {| riskData := Some JNull; loading := false; error := None;
     manualLocation := emptyString; manualAllergies := js "pollen, dust";
     isStreaming := false; steps := initialSteps;
     requests := []; console := [] |}.

Definition set_riskData (v : jsvalue) (w : World) : World :=
  {| riskData := v; loading := loading w; error := error w;
     manualLocation := manualLocation w; manualAllergies := manualAllergies w;
     isStreaming := isStreaming w; steps := steps w;
     requests := requests w; console := console w |}.

Definition set_loading (b : bool) (w : World) : World :=
  {| riskData := riskData w; loading := b; error := error w;
     manualLocation := manualLocation w; manualAllergies := manualAllergies w;
     isStreaming := isStreaming w; steps := steps w;
     requests := requests w; console := console w |}.

Definition set_error (e : option jsstring) (w : World) : World :=
  {| riskData := riskData w; loading := loading w; error := e;
     manualLocation := manualLocation w; manualAllergies := manualAllergies w;
     isStreaming := isStreaming w; steps := steps w;
     requests := requests w; console := console w |}.

Definition set_isStreaming (b : bool) (w : World) : World :=
  {| riskData := riskData w; loading := loading w; error := error w;
     manualLocation := manualLocation w; manualAllergies := manualAllergies w;
     isStreaming := b; steps := steps w;
     requests := requests w; console := console w |}.

Definition set_steps (f : list Step → list Step) (w : World) : World :=
  {| riskData := riskData w; loading := loading w; error := error w;
     manualLocation := manualLocation w; manualAllergies := manualAllergies w;
     isStreaming := isStreaming w; steps := f (steps w);
     requests := requests w; console := console w |}.

(** [setManualAllergies(e.target.value)] *)
Definition set_manualAllergies (value : jsstring) (w : World) : World :=
  {| riskData := riskData w; loading := loading w; error := error w;
     manualLocation := manualLocation w; manualAllergies := value;
     isStreaming := isStreaming w; steps := steps w;
     requests := requests w; console := console w |}.

Definition log_request (r : Request) (w : World) : World :=
  {| riskData := riskData w; loading := loading w; error := error w;
     manualLocation := manualLocation w; manualAllergies := manualAllergies w;
     isStreaming := isStreaming w; steps := steps w;
     requests := requests w ++ [r]; console := console w |}.

Definition log_console (e : ParseError) (w : World) : World :=
  {| riskData := riskData w; loading := loading w; error := error w;
     manualLocation := manualLocation w; manualAllergies := manualAllergies w;
     isStreaming := isStreaming w; steps := steps w;
     requests := requests w; console := console w ++ [e] |}.

(** ** Effects

    A statement of the page transforms the world and either completes with
    a value or throws; what it did before throwing stays done. *)

Definition M (E A : Type) : Type := World → World * (A + E).

#[global] Instance M_ret {E} : MRet (M E) :=
  λ A (a : A) w, (w, inl a).

#[global] Instance M_bind {E} : MBind (M E) :=
  λ A B (k : A → M E B) (m : M E A) w,
    match m w with
    | (w', inl a) => k a w'
    | (w', inr e) => (w', inr e)
    end.

#[global] Instance M_throw {E} : MThrow E (M E) :=
  λ A (e : E) w, (w, inr e).

(** [try { body } catch (e) { handler }] *)
Definition try_catch {E E' A} (body : M E A) (handler : E → M E' A) : M E' A :=
  λ w,
    match body w with
    | (w', inl a) => (w', inl a)
    | (w', inr e) => handler e w'
    end.

(** A state setter or a log entry. *)
Definition perform {E} (f : World → World) : M E unit :=
  λ w, (f w, inl tt).

(** The world a statement leaves. *)
Definition exec {E A} (m : M E A) (w : World) : World := (m w).1.

(** [for (const x of xs) body(x)] *)
Fixpoint forOf {E A} (xs : list A) (body : A → M E unit) : M E unit :=
  match xs with
  | [] => mret tt
  | x :: xs' => body x;; forOf xs' body
  end.

Definition setRiskData {E} (v : jsvalue) : M E unit := perform (set_riskData v).
Definition setLoading {E} (b : bool) : M E unit := perform (set_loading b).
Definition setError {E} (e : option jsstring) : M E unit := perform (set_error e).
Definition setIsStreaming {E} (b : bool) : M E unit := perform (set_isStreaming b).
Definition setSteps {E} (f : list Step → list Step) : M E unit := perform (set_steps f).

(** The two callbacks of [useAgentStatus], as the page calls them.  The
    page passes [data.step], which is whatever the parsed record holds:
    [s.id === stepId] is false for every [stepId] that is not a string, so
    [findIndex] returns [-1] and the updater returns a copy of the list. *)
Definition callUpdateStep {E} (stepId : jsvalue) (st : NewStatus) : M E unit :=
  setSteps (λ prevSteps,
    match stepId with
    | Some (JStr stepId) => updateStep stepId st prevSteps
    | _ => prevSteps
    end).

Definition resetSteps {E} : M E unit := setSteps (λ _, initialSteps).

(** ** The network

    What [fetch] and the body's reader deliver to one run: the page has no
    influence on it beyond the request it sends. *)

Inductive StreamEnd :=
| EndOfStream                 (* [read()] resolves with [done] *)
| ReadRejects (e : RunError). (* [read()] rejects *)

Record Body := { chunks : list (list byte); ending : StreamEnd }.

Record Response := { ok : bool; statusText : jsstring; body : option Body }.

Inductive FetchOutcome :=
| FetchRejects (e : RunError)
| FetchResolves (response : Response).

Definition Network := Request → FetchOutcome.

(** [await fetch(url, { method: 'POST', ..., body: JSON.stringify(r) })] *)
Definition fetch (net : Network) (r : Request) : M RunError Response :=
  λ w,
    match net r with
    | FetchRejects e => (log_request r w, inr e)
    | FetchResolves response => (log_request r w, inl response)
    end.

(** ** The platform

    The two library objects the consumer relies on.  A [TextDecoder] fed
    with [{ stream: true }] is a transducer from bytes to code units that
    keeps its state between calls; [JSON.parse] returns a value or throws
    a [SyntaxError] ([None]). *)

Class Platform := {
  TextDecoder : Type;
  new_TextDecoder : TextDecoder;
  decode_byte : TextDecoder → byte → TextDecoder * jsstring;
  JSON_parse : jsstring → option json;
}.

Section Client.
Context `{Platform}.

(** [decoder.decode(value, { stream: true })] *)
Fixpoint decode (decoder : TextDecoder) (value : list byte) : TextDecoder * jsstring :=
  match value with
  | [] => (decoder, [])
  | b :: value' =>
      let '(decoder, text) := decode_byte decoder b in
      let '(decoder, text') := decode decoder value' in
      (decoder, text ++ text')
  end.

Definition parseJSON (text : jsstring) : M ParseError json :=
  match JSON_parse text with
  | Some data => mret data
  | None => mthrow SyntaxError
  end.

(** [data.key] for the keys the page reads ([type], [step], [data],
    [message]): none of them is a property of a prototype, so the read
    gives the member of an object, [undefined] on any other value, and
    throws on [null]. *)
Definition readProperty (data : json) (key : jsstring) : M ParseError jsvalue :=
  match data with
  | JNull => mthrow TypeError
  | JObj members => mret (member key members)
  | _ => mret None
  end.

(** The statements after [JSON.parse] inside the [try] block. *)
Definition handleRecord (data : json) : M ParseError unit :=
  type ← readProperty data (js "type");
  if strictEq type (js "step_start") then
    step ← readProperty data (js "step");
    callUpdateStep step to_active
  else if strictEq type (js "step_complete") then
    step ← readProperty data (js "step");
    callUpdateStep step to_completed
  else if strictEq type (js "result") then
    payload ← readProperty data (js "data");
    setRiskData payload;;
    setIsStreaming false;;
    setLoading false
  else if strictEq type (js "error") then
    message ← readProperty data (js "message");
    mthrow (ServerError message)
  else mret tt.

(** The body of [for (const line of lines)]. *)
Definition handleLine {E} (line : jsstring) : M E unit :=
  if startsWith (js "data: ") line then
    try_catch
      (data ← parseJSON (slice 6 line);
       handleRecord data)
      (λ parseError, perform (log_console parseError))
  else mret tt.

(** The world one turn of the loop leaves. *)
Definition afterLine (w : World) (line : jsstring) : World :=
  exec (handleLine (E:=RunError) line) w.

(** [lines.pop() || ''] *)
Definition pop_or_empty (lines : list jsstring) : jsstring :=
  match list.last lines with
  | Some l => if bool_decide (l = []) then [] else l
  | None => []
  end.

(** [while (true) { const { done, value } = await reader.read(); ... }] *)
Fixpoint readLoop (chunks : list (list byte)) (ending : StreamEnd)
    (decoder : TextDecoder) (buffer : jsstring) : M RunError unit :=
  match chunks with
  | [] =>
      match ending with
      | EndOfStream => mret tt
      | ReadRejects e => mthrow e
      end
  | value :: chunks' =>
      let '(decoder, text) := decode decoder value in
      let buffer := buffer ++ text in
      let lines := split 10 buffer in
      let buffer := pop_or_empty lines in
      let lines := removelast lines in
      forOf lines handleLine;;
      readLoop chunks' ending decoder buffer
  end.

(** [loc] is a string and [allergies] an array, as the signature says:
    [!loc] holds of the empty string only and [!allergies] never. *)
Definition fetchRiskData (net : Network) (loc : jsstring)
    (allergies : list jsstring) : M Empty_set unit :=
  try_catch
    (setLoading true;;
     setError None;;
     setIsStreaming true;;
     resetSteps;;
     (if bool_decide (loc = []) || bool_decide (trim loc = [])
      then mthrow (Error (js "Please enter a location")) else mret tt);;
     (if bool_decide (length allergies = 0)
      then mthrow (Error (js "Please enter allergies")) else mret tt);;
     response ← fetch net {| location := trim loc; allergies := allergies |};
     (if negb (ok response)
      then mthrow (Error (js "API error: " ++ statusText response)) else mret tt);;
     match body response with
     | None => mthrow (Error (js "No response body"))
     | Some reader =>
         readLoop (chunks reader) (ending reader) new_TextDecoder emptyString
     end)
    (λ err,
      setError (Some match err with
                     | Error message => message
                     | NotAnError => js "Failed to fetch risk data"
                     end);;
      setIsStreaming false;;
      setLoading false).

(** [manualAllergies.split(',').map(a => a.trim()).filter(a => a.length > 0)] *)
Definition allergiesList (manualAllergies : jsstring) : list jsstring :=
  filter (λ a, 0 < length a) (map trim (split 44 manualAllergies)).

Definition handleManualSubmit (net : Network) : M Empty_set unit :=
  λ w,
    let allergiesList := allergiesList (manualAllergies w) in
    if bool_decide (length allergiesList = 0)
    then setError (Some (js "Please enter at least one allergy")) w
    else fetchRiskData net (manualLocation w) allergiesList w.

End Client.

(** ** A browser

    The platform the page runs on: the UTF-8 decoder of the Encoding
    standard in its replacement error mode, with a leading byte order mark
    dropped, and the JSON grammar of ECMA-404. *)

Module Browser.

Local Open Scope N_scope.

Record Utf8Decoder := {
  bom_seen : bool;
  code_point : N;
  bytes_seen : N;
  bytes_needed : N;
  lower_boundary : N;
  upper_boundary : N;
}.

Definition utf8_new : Utf8Decoder :=
  {| bom_seen := false; code_point := 0; bytes_seen := 0; bytes_needed := 0;
     lower_boundary := 0x80; upper_boundary := 0xBF |}.

Definition utf8_reset (d : Utf8Decoder) : Utf8Decoder :=
  {| bom_seen := bom_seen d; code_point := 0; bytes_seen := 0; bytes_needed := 0;
     lower_boundary := 0x80; upper_boundary := 0xBF |}.

Definition utf8_expect (d : Utf8Decoder) (needed cp lower upper : N) : Utf8Decoder :=
  {| bom_seen := bom_seen d; code_point := cp; bytes_seen := 0;
     bytes_needed := needed; lower_boundary := lower; upper_boundary := upper |}.

(** A byte read while no sequence is open; the scalar values it yields. *)
Definition utf8_lead (d : Utf8Decoder) (b : N) : Utf8Decoder * list N :=
  if b <=? 0x7F then (d, [b])
  else if (0xC2 <=? b) && (b <=? 0xDF) then
    (utf8_expect d 1 (N.land b 0x1F) 0x80 0xBF, [])
  else if (0xE0 <=? b) && (b <=? 0xEF) then
    (utf8_expect d 2 (N.land b 0xF)
       (if b =? 0xE0 then 0xA0 else 0x80) (if b =? 0xED then 0x9F else 0xBF), [])
  else if (0xF0 <=? b) && (b <=? 0xF4) then
    (utf8_expect d 3 (N.land b 0x7)
       (if b =? 0xF0 then 0x90 else 0x80) (if b =? 0xF4 then 0x8F else 0xBF), [])
  else (d, [0xFFFD]).

(** A byte outside the expected range ends the open sequence with U+FFFD
    and is read again as a lead byte. *)
Definition utf8_handler (d : Utf8Decoder) (b : N) : Utf8Decoder * list N :=
  if bytes_needed d =? 0 then utf8_lead d b
  else if negb ((lower_boundary d <=? b) && (b <=? upper_boundary d)) then
    let '(d', out) := utf8_lead (utf8_reset d) b in (d', 0xFFFD :: out)
  else
    let cp := N.lor (N.shiftl (code_point d) 6) (N.land b 0x3F) in
    if bytes_seen d + 1 =? bytes_needed d then (utf8_reset d, [cp])
    else ({| bom_seen := bom_seen d; code_point := cp;
             bytes_seen := bytes_seen d + 1; bytes_needed := bytes_needed d;
             lower_boundary := 0x80; upper_boundary := 0xBF |}, []).

(** A scalar value as UTF-16 code units. *)
Definition utf16 (cp : N) : jsstring :=
  if cp <? 0x10000 then [cp]
  else [0xD800 + N.shiftr (cp - 0x10000) 10; 0xDC00 + N.land (cp - 0x10000) 0x3FF].

(** The first scalar value of the stream is dropped when it is U+FEFF. *)
Fixpoint serialize (seen : bool) (scalars : list N) : bool * jsstring :=
  match scalars with
  | [] => (seen, [])
  | cp :: rest =>
      if negb seen && (cp =? 0xFEFF) then serialize true rest
      else let '(seen', text) := serialize true rest in (seen', utf16 cp ++ text)
  end.

Definition utf8_decode_byte (d : Utf8Decoder) (b : byte) : Utf8Decoder * jsstring :=
  let '(d', scalars) := utf8_handler d (Byte.to_N b) in
  let '(seen, text) := serialize (bom_seen d') scalars in
  ({| bom_seen := seen; code_point := code_point d'; bytes_seen := bytes_seen d';
      bytes_needed := bytes_needed d'; lower_boundary := lower_boundary d';
      upper_boundary := upper_boundary d' |}, text).

(** *** JSON.parse *)

Definition isJsonWhiteSpace (c : N) : bool :=
  (c =? 32) || (c =? 9) || (c =? 10) || (c =? 13).

Fixpoint skip_ws (s : jsstring) : jsstring :=
  match s with
  | c :: s' => if isJsonWhiteSpace c then skip_ws s' else s
  | [] => []
  end.

Definition isDigit (c : N) : bool := (48 <=? c) && (c <=? 57).

Definition hexValue (c : N) : option N :=
  if isDigit c then Some (c - 48)
  else if (65 <=? c) && (c <=? 70) then Some (c - 55)
  else if (97 <=? c) && (c <=? 102) then Some (c - 87)
  else None.

Definition hex4 (h1 h2 h3 h4 : N) : option N :=
  a ← hexValue h1; b ← hexValue h2; c ← hexValue h3; d ← hexValue h4;
  Some (((a * 16 + b) * 16 + c) * 16 + d).

(** The character a single-letter escape stands for. *)
Definition escape (e : N) : option N :=
  if e =? 34 then Some 34          (* quotation mark *)
  else if e =? 92 then Some 92     (* reverse solidus *)
  else if e =? 47 then Some 47     (* solidus *)
  else if e =? 98 then Some 8      (* b: backspace *)
  else if e =? 102 then Some 12    (* f: form feed *)
  else if e =? 110 then Some 10    (* n: line feed *)
  else if e =? 114 then Some 13    (* r: carriage return *)
  else if e =? 116 then Some 9     (* t: tabulation *)
  else None.

(** The characters of a string after its opening quote, up to and
    including the closing one; [acc] holds those read so far, reversed. *)
Fixpoint parse_chars (s acc : jsstring) : option (jsstring * jsstring) :=
  match s with
  | [] => None
  | c :: s' =>
      if c =? 34 then Some (rev acc, s')
      else if c =? 92 then
        match s' with
        | [] => None
        | e :: s'' =>
            if e =? 117 then
              match s'' with
              | h1 :: h2 :: h3 :: h4 :: s3 =>
                  match hex4 h1 h2 h3 h4 with
                  | Some u => parse_chars s3 (u :: acc)
                  | None => None
                  end
              | _ => None
              end
            else
              match escape e with
              | Some u => parse_chars s'' (u :: acc)
              | None => None
              end
        end
      else if c <? 32 then None
      else parse_chars s' (c :: acc)
  end.

Fixpoint span_digits (s : jsstring) : jsstring * jsstring :=
  match s with
  | c :: s' =>
      if isDigit c then let '(ds, rest) := span_digits s' in (c :: ds, rest)
      else ([], s)
  | [] => ([], [])
  end.

Definition parse_sign (signs : list N) (s : jsstring) : jsstring * jsstring :=
  match s with
  | c :: s' => if existsb (N.eqb c) signs then ([c], s') else ([], s)
  | [] => ([], [])
  end.

Definition parse_int (s : jsstring) : option (jsstring * jsstring) :=
  match s with
  | c :: s' =>
      if c =? 48 then Some ([c], s')
      else if isDigit c then Some (span_digits s)
      else None
  | [] => None
  end.

Definition parse_frac (s : jsstring) : option (jsstring * jsstring) :=
  match s with
  | c :: s' =>
      if c =? 46 then
        let '(ds, rest) := span_digits s' in
        if bool_decide (ds = []) then None else Some (c :: ds, rest)
      else Some ([], s)
  | [] => Some ([], [])
  end.

Definition parse_exp (s : jsstring) : option (jsstring * jsstring) :=
  match s with
  | c :: s' =>
      if (c =? 69) || (c =? 101) then
        let '(sign, s1) := parse_sign [43; 45] s' in
        let '(ds, rest) := span_digits s1 in
        if bool_decide (ds = []) then None else Some (c :: sign ++ ds, rest)
      else Some ([], s)
  | [] => Some ([], [])
  end.

Definition parse_number (s : jsstring) : option (jsstring * jsstring) :=
  let '(sign, s0) := parse_sign [45] s in
  '(int, s1) ← parse_int s0;
  '(frac, s2) ← parse_frac s1;
  '(exp, s3) ← parse_exp s2;
  Some (sign ++ int ++ frac ++ exp, s3).

Fixpoint parse_value (fuel : nat) (s : jsstring) : option (json * jsstring) :=
  match fuel with
  | O => None
  | S fuel =>
      match skip_ws s with
      | [] => None
      | c :: rest =>
          if c =? 34 then
            '(str, rest') ← parse_chars rest [];
            Some (JStr str, rest')
          else if c =? 91 then
            match skip_ws rest with
            | [] => None
            | c' :: rest' =>
                if c' =? 93 then Some (JArr [], rest')
                else parse_elements fuel rest []
            end
          else if c =? 123 then
            match skip_ws rest with
            | [] => None
            | c' :: rest' =>
                if c' =? 125 then Some (JObj [], rest')
                else parse_members fuel rest []
            end
          else if startsWith (js "true") (c :: rest) then Some (JBool true, drop 3 rest)
          else if startsWith (js "false") (c :: rest) then Some (JBool false, drop 4 rest)
          else if startsWith (js "null") (c :: rest) then Some (JNull, drop 3 rest)
          else
            '(lexeme, rest') ← parse_number (c :: rest);
            Some (JNum lexeme, rest')
      end
  end
with parse_elements (fuel : nat) (s : jsstring) (acc : list json)
    : option (json * jsstring) :=
  match fuel with
  | O => None
  | S fuel =>
      '(v, rest) ← parse_value fuel s;
      match skip_ws rest with
      | [] => None
      | c :: rest' =>
          if c =? 44 then parse_elements fuel rest' (v :: acc)
          else if c =? 93 then Some (JArr (rev (v :: acc)), rest')
          else None
      end
  end
with parse_members (fuel : nat) (s : jsstring) (acc : list (jsstring * json))
    : option (json * jsstring) :=
  match fuel with
  | O => None
  | S fuel =>
      match skip_ws s with
      | [] => None
      | c :: rest =>
          if c =? 34 then
            '(key, rest1) ← parse_chars rest [];
            match skip_ws rest1 with
            | [] => None
            | c1 :: rest2 =>
                if c1 =? 58 then
                  '(v, rest3) ← parse_value fuel rest2;
                  match skip_ws rest3 with
                  | [] => None
                  | c2 :: rest4 =>
                      if c2 =? 44 then parse_members fuel rest4 ((key, v) :: acc)
                      else if c2 =? 125 then Some (JObj (rev ((key, v) :: acc)), rest4)
                      else None
                  end
                else None
            end
          else None
      end
  end.

(** No value nests deeper than the text is long, and each level of
    nesting costs two units of fuel. *)
Definition JSON_parse (text : jsstring) : option json :=
  '(v, rest) ← parse_value (2 * length text + 2) text;
  if bool_decide (skip_ws rest = []) then Some v else None.

End Browser.

#[global] Instance browser : Platform := {|
  TextDecoder := Browser.Utf8Decoder;
  new_TextDecoder := Browser.utf8_new;
  decode_byte := Browser.utf8_decode_byte;
  JSON_parse := Browser.JSON_parse;
|}.

(** ** Servers *)

(** The bytes of an ASCII text. *)
Definition bytes_of (text : jsstring) : list byte := omap Byte.of_N text.

(** A JSON string literal. *)
Definition quoted (s : string) : jsstring := [34%N] ++ js s ++ [34%N].

(** The line [data: ] followed by an object of two members, [type] and
    [key], both strings. *)
Definition record (type key value : string) : jsstring :=
  js "data: {" ++ quoted "type" ++ js ":" ++ quoted type ++ js ","
    ++ quoted key ++ js ":" ++ quoted value ++ js "}".

(** The text of a stream: each line with its newline. *)
Definition stream (lines : list jsstring) : jsstring :=
  concat (map (λ line, line ++ [10%N]) lines).

(** A network whose server answers every request with the same body. *)
Definition serve (chunks : list (list byte)) (ending : StreamEnd) : Network :=
  λ _, FetchResolves {| ok := true; statusText := js "OK";
                        body := Some {| chunks := chunks; ending := ending |} |}.

(** Unfolds a run of the page down to its tests and its setters. *)
Ltac run_page :=
  cbv [exec fetchRiskData handleManualSubmit try_catch mbind M_bind mret M_ret
       mthrow M_throw setLoading setError setIsStreaming setRiskData setSteps
       resetSteps perform fetch serve];
  cbn [fst snd ok body chunks ending statusText negb].

(** ** Stages of a run

    The worlds [fetchRiskData] passes through, named for the statements
    about whole runs. *)

(** After [setLoading(true); setError(null); setIsStreaming(true);
    resetSteps()]. *)
Definition started (w : World) : World :=
  set_steps (λ _, initialSteps)
    (set_isStreaming true (set_error None (set_loading true w))).

(** After the request has gone out. *)
Definition sent (loc : jsstring) (allergies : list jsstring) (w : World) : World :=
  log_request {| location := trim loc; allergies := allergies |} (started w).

(** [err instanceof Error ? err.message : 'Failed to fetch risk data'] *)
Definition failureMessage (err : RunError) : jsstring :=
  match err with
  | Error message => message
  | NotAnError => js "Failed to fetch risk data"
  end.

(** After the outer [catch] block. *)
Definition failed (message : jsstring) (w : World) : World :=
  set_loading false (set_isStreaming false (set_error (Some message) w)).

(** The lines the loop has handed to its body when a body has been read to
    its end: those of the decoded text that a newline closes. *)
Definition linesOf `{Platform} (chunks : list (list byte)) : list jsstring :=
  removelast (split 10 (decode new_TextDecoder (concat chunks)).2).

(** ** Status of a reading (page.tsx)

    A JavaScript number is [NaN], an infinity or a finite double, and a
    finite double is a rational; [<=] is the order of the rationals
    extended to the infinities, and is false as soon as a side is [NaN]. *)

Inductive number :=
| NaN
| Infinity (negative : bool)
| Finite (q : Q).

Definition number_le (x y : number) : bool :=
  match x, y with
  | NaN, _ | _, NaN => false
  | Infinity true, _ => true
  | _, Infinity false => true
  | Infinity false, _ => false
  | _, Infinity true => false
  | Finite p, Finite q => Qle_bool p q
  end.

Inductive EnvStatus := good | moderate | poor.

(** The order in which the cards colour a status. *)
Definition severity (s : EnvStatus) : nat :=
  match s with good => 0 | moderate => 1 | poor => 2 end.

(** [None] is [undefined]. *)
Definition getAQIStatus (aqi : option number) : EnvStatus :=
  match aqi with
  | None => moderate
  | Some aqi =>
      if number_le aqi (Finite (50 # 1)) then good
      else if number_le aqi (Finite (100 # 1)) then moderate
      else poor
  end.

Definition getPollenStatus (pollen : option number) : EnvStatus :=
  match pollen with
  | None => good
  | Some pollen =>
      if number_le pollen (Finite (2 # 1)) then good
      else if number_le pollen (Finite (5 # 1)) then moderate
      else poor
  end.

(** ** The chat window (ChatInterface.tsx)

    [handleSend] runs in two parts: up to its [await] on a one-second
    timer, and from there on when the timer fires.  [timers] holds the
    calls that wait, oldest first, each with the [userMessage] it has
    bound. *)














(** * Properties *)

(** ** The step state machine *)

Lemma findIndex_Some stepId steps i :
  findIndex stepId steps = Some i ↔
  ∃ s, steps !! i = Some s ∧ id s = stepId
       ∧ ∀ j y, steps !! j = Some y → j < i → id y ≠ stepId.
Proof.
  unfold findIndex. split.
  - intros Hfind. apply fmap_Some in Hfind as [[k s] [Hfind ->]].
    apply list_find_Some in Hfind. exists s. exact Hfind.
  - intros (s & Hs & Hid & Hbefore). apply fmap_Some. exists (i, s).
    split; [|done]. apply list_find_Some. done.
Qed.

Lemma findIndex_None stepId steps :
  findIndex stepId steps = None ↔ Forall (λ s, id s ≠ stepId) steps.
Proof.
  unfold findIndex. rewrite fmap_None. apply list_find_None.
Qed.

Lemma with_status_same s : with_status (status s) s = s.
Proof. by destruct s. Qed.

Lemma markCompleted_alter steps i :
  markCompleted steps i = alter (with_status completed) i steps.
Proof.
  unfold markCompleted. apply list_eq. intros j.
  destruct (steps !! i) as [s|] eqn:Hs.
  - case_bool_decide as Hst.
    + destruct (decide (i = j)) as [<-|Hne].
      * rewrite list_lookup_insert_eq by (by eapply lookup_lt_Some).
        by rewrite list_lookup_alter_eq, Hs.
      * by rewrite list_lookup_insert_ne, list_lookup_alter_ne.
    + destruct (decide (i = j)) as [<-|Hne].
      * rewrite list_lookup_alter_eq, Hs. simpl.
        assert (status s = completed) as <- by (by destruct (status s)).
        by rewrite with_status_same.
      * by rewrite list_lookup_alter_ne.
  - destruct (decide (i = j)) as [<-|Hne].
    + by rewrite list_lookup_alter_eq, Hs.
    + by rewrite list_lookup_alter_ne.
Qed.

Lemma markCompleted_upto steps n j :
  foldl markCompleted steps (seq 0 n) !! j =
  (if decide (j < n) then with_status completed else λ s, s) <$> steps !! j.
Proof.
  induction n as [|n IH].
  - simpl. by destruct (steps !! j).
  - rewrite seq_S, foldl_app. simpl. rewrite markCompleted_alter.
    destruct (decide (n = j)) as [<-|Hne].
    + rewrite list_lookup_alter_eq, IH.
      rewrite decide_False by lia. rewrite decide_True by lia.
      by destruct (steps !! n).
    + rewrite list_lookup_alter_ne by done. rewrite IH.
      destruct (decide (j < n)); [rewrite decide_True by lia|rewrite decide_False by lia]; done.
Qed.

(** What [updateStep] leaves at each index when the id is found. *)
Lemma updateStep_lookup stepId st steps i j :
  findIndex stepId steps = Some i →
  updateStep stepId st steps !! j =
  (if decide (j < i) then with_status completed
   else if decide (j = i) then with_status (status_of st)
   else λ s, s) <$> steps !! j.
Proof.
  intros Hi. unfold updateStep. rewrite Hi. simpl.
  rewrite markCompleted_upto.
  destruct (decide (j = i)) as [->|Hne].
  - rewrite list_lookup_alter_eq. rewrite !decide_False by lia.
    by destruct (steps !! i).
  - rewrite list_lookup_alter_ne by done.
    by destruct (decide (j < i)).
Qed.

Lemma updateStep_unknown stepId st steps :
  findIndex stepId steps = None → updateStep stepId st steps = steps.
Proof. intros Hi. unfold updateStep. by rewrite Hi. Qed.


Lemma updateStep_length stepId st steps :
  length (updateStep stepId st steps) = length steps.
Proof.
  destruct (findIndex stepId steps) as [i|] eqn:Hi.
  - apply Nat.le_antisymm.
    + apply Nat.nlt_ge. intros Hlt. apply lookup_lt_is_Some_2 in Hlt as [s Hs].
      rewrite (updateStep_lookup _ _ _ _ _ Hi) in Hs.
      apply fmap_Some in Hs as (s' & Hs' & _).
      apply lookup_lt_Some in Hs'. lia.
    + apply Nat.nlt_ge. intros Hlt. apply lookup_lt_is_Some_2 in Hlt as [s Hs].
      pose proof (updateStep_lookup stepId st steps i (length (updateStep stepId st steps)) Hi) as Hl.
      rewrite Hs in Hl. rewrite lookup_ge_None_2 in Hl by lia. done.
  - by rewrite updateStep_unknown.
Qed.

Lemma updateStep_ids stepId st steps :
  id <$> updateStep stepId st steps = id <$> steps.
Proof.
  destruct (findIndex stepId steps) as [i|] eqn:Hi.
  - apply list_eq. intros j. rewrite !list_lookup_fmap.
    rewrite (updateStep_lookup _ _ _ _ _ Hi).
    destruct (steps !! j) as [s|]; [simpl|done].
    repeat case_decide; done.
  - by rewrite updateStep_unknown.
Qed.

Lemma findIndex_ids stepId steps steps' :
  id <$> steps = id <$> steps' → findIndex stepId steps = findIndex stepId steps'.
Proof.
  intros Hids.
  assert (∀ l, findIndex stepId l = fst <$> list_find (λ i, i = stepId) (id <$> l)) as Hfind.
  { intros l. unfold findIndex. rewrite list_find_fmap.
    destruct (list_find _ l) as [[k s]|]; done. }
  by rewrite !Hfind, Hids.
Qed.

Lemma progress_at_updateStep n i stepId st steps :
  progress_at n steps → findIndex stepId steps = Some i → n ≤ i →
  progress_at i (updateStep stepId st steps).
Proof.
  intros Hn Hi Hle j s Hs.
  rewrite (updateStep_lookup _ _ _ _ _ Hi) in Hs.
  apply fmap_Some in Hs as (s0 & Hs0 & ->).
  destruct (Hn j s0 Hs0) as [_ Hafter].
  split; intros Hj.
  - by rewrite decide_True.
  - rewrite !decide_False by lia. apply Hafter. lia.
Qed.

Lemma progress_at_invariant n steps :
  progress_at n steps → at_most_one_active steps ∧ earlier_completed steps.
Proof.
  intros Hn. split.
  - intros i j si sj Hi Hj Hai Haj.
    destruct (Hn i si Hi) as [Hi1 Hi2], (Hn j sj Hj) as [Hj1 Hj2].
    destruct (decide (i < n)) as [?|?]; [rewrite Hi1 in Hai by done; done|].
    destruct (decide (n < i)) as [?|?]; [rewrite Hi2 in Hai by done; done|].
    destruct (decide (j < n)) as [?|?]; [rewrite Hj1 in Haj by done; done|].
    destruct (decide (n < j)) as [?|?]; [rewrite Hj2 in Haj by done; done|].
    lia.
  - intros i j si sj Hi Hj Hlt Hnp.
    destruct (Hn i si Hi) as [_ Hi2], (Hn j sj Hj) as [Hj1 _].
    apply Hj1. destruct (decide (n < i)); [by destruct Hnp; apply Hi2|lia].
Qed.

Lemma progress_at_initial : progress_at 0 initialSteps.
Proof.
  intros j s Hs. split; [lia|]. intros _.
  apply list_elem_of_lookup_2 in Hs. unfold initialSteps in Hs.
  repeat (apply elem_of_cons in Hs as [->|Hs]; [done|]).
  by apply elem_of_nil in Hs.
Qed.

Lemma starts_in_order_ids calls : ∀ high steps steps',
  id <$> steps = id <$> steps' →
  starts_in_order high steps calls = starts_in_order high steps' calls.
Proof.
  induction calls as [|[stepId st] calls IH]; intros high steps steps' Hids; [done|].
  simpl. rewrite (findIndex_ids stepId steps steps' Hids).
  destruct (findIndex stepId steps') as [i|]; [|by apply IH].
  destruct st; [|by apply IH]. by rewrite (IH i steps steps').
Qed.

Lemma starts_in_order_take calls : ∀ n high steps,
  starts_in_order high steps calls = true →
  starts_in_order high steps (take n calls) = true.
Proof.
  induction calls as [|[stepId st] calls IH]; intros n high steps Hord.
  - by destruct n.
  - destruct n as [|n]; [done|]. simpl in *.
    destruct (findIndex stepId steps) as [i|]; [|by apply IH].
    destruct st; [|by apply IH].
    apply andb_true_iff in Hord as [-> Hord]. by apply IH.
Qed.

(** A completed step completed once more: nothing changes before [n]. *)
Lemma progress_at_complete_earlier n i stepId steps :
  progress_at n steps → findIndex stepId steps = Some i → i < n →
  progress_at n (updateStep stepId to_completed steps).
Proof.
  intros Hn Hi Hlt j s Hs.
  rewrite (updateStep_lookup _ _ _ _ _ Hi) in Hs.
  apply fmap_Some in Hs as (s0 & Hs0 & ->).
  destruct (Hn j s0 Hs0) as [Hbefore Hafter].
  split; intros Hj.
  - destruct (decide (j < i)); [done|]. destruct (decide (j = i)); [done|].
    by apply Hbefore.
  - rewrite !decide_False by lia. by apply Hafter.
Qed.

Lemma replay_starts_in_order calls : ∀ high steps,
  progress_at high steps →
  starts_in_order high steps calls = true →
  ∃ n, progress_at n (replay calls steps).
Proof.
  induction calls as [|[stepId st] calls IH]; intros high steps Hhigh Hord.
  - by exists high.
  - change (replay ((stepId, st) :: calls) steps)
      with (replay calls (updateStep stepId st steps)).
    simpl in Hord.
    destruct (findIndex stepId steps) as [i|] eqn:Hi.
    + destruct st.
      * apply andb_true_iff in Hord as [Hle Hord]. apply Nat.leb_le in Hle.
        apply (IH i); [by apply (progress_at_updateStep high i)|].
        by rewrite (starts_in_order_ids calls i _ steps (updateStep_ids _ _ _)).
      * apply (IH (high `max` i)).
        -- destruct (decide (i < high)).
           ++ rewrite Nat.max_l by lia. by apply (progress_at_complete_earlier high i).
           ++ rewrite Nat.max_r by lia.
              apply (progress_at_updateStep high i); [done..|lia].
        -- by rewrite (starts_in_order_ids calls _ _ steps (updateStep_ids _ _ _)).
    + rewrite updateStep_unknown by done. by apply (IH high).
Qed.

(** A step that is not pending stays so under any call. *)
Lemma updateStep_not_pending stepId st (steps : list Step) j s :
  steps !! j = Some s → status s ≠ pending →
  ∃ s', updateStep stepId st steps !! j = Some s' ∧ status s' ≠ pending.
Proof.
  intros Hs Hnp. destruct (findIndex stepId steps) as [i|] eqn:Hi.
  - rewrite (updateStep_lookup _ _ _ _ _ Hi), Hs. simpl. eexists; split; [done|].
    destruct (decide (j < i)); [done|]. destruct (decide (j = i)); [|done].
    by destruct st.
  - rewrite updateStep_unknown by done. by exists s.
Qed.

(** The first [step_start] that aims before an earlier target breaks the
    shape on the spot. *)
Lemma replay_start_out_of_order calls : ∀ high steps,
  (high = 0 ∨ ∃ s, steps !! high = Some s ∧ status s ≠ pending) →
  starts_in_order high steps calls = false →
  ∃ n, ¬ earlier_completed (replay (take n calls) steps).
Proof.
  induction calls as [|[stepId st] calls IH]; intros high steps Hhigh Hord; [done|].
  simpl in Hord.
  destruct (findIndex stepId steps) as [i|] eqn:Hi.
  - assert (∃ s, updateStep stepId st steps !! i = Some s ∧ status s ≠ pending)
      as Htarget.
    { apply findIndex_Some in Hi as Hfound. destruct Hfound as (s & Hs & _).
      rewrite (updateStep_lookup _ _ _ _ _ Hi), Hs.
      rewrite decide_False by lia. rewrite decide_True by done. simpl.
      eexists; split; [done|]. by destruct st. }
    destruct st.
    + destruct (Nat.leb_spec high i) as [Hle|Hlt]; simpl in Hord.
      * rewrite (starts_in_order_ids calls i steps _
                   (eq_sym (updateStep_ids stepId to_active steps))) in Hord.
        destruct (IH i _ (or_intror Htarget) Hord) as [n Hn].
        by exists (S n).
      * exists 1. simpl. change (replay [(stepId, to_active)] steps)
          with (updateStep stepId to_active steps).
        destruct Hhigh as [->|(sh & Hsh & Hnp)]; [lia|].
        destruct Htarget as (si & Hsi & _).
        assert (status si = active) as Hactive.
        { apply findIndex_Some in Hi as Hfound. destruct Hfound as (s & Hs & _).
          rewrite (updateStep_lookup _ _ _ _ _ Hi), Hs in Hsi.
          rewrite decide_False in Hsi by lia. rewrite decide_True in Hsi by done.
          simpl in Hsi. by injection Hsi as <-. }
        intros Hshape.
        assert (updateStep stepId to_active steps !! high = Some sh) as Hsh'.
        { rewrite (updateStep_lookup _ _ _ _ _ Hi), Hsh.
          by rewrite !decide_False by lia. }
        pose proof (Hshape high i sh si Hsh' Hsi Hlt Hnp) as Hcompleted.
        congruence.
    + rewrite (starts_in_order_ids calls _ steps _
                 (eq_sym (updateStep_ids stepId to_completed steps))) in Hord.
      destruct (IH (high `max` i) (updateStep stepId to_completed steps)) as [n Hn];
        [|done|by exists (S n)].
      right. destruct (decide (i < high)).
      * rewrite Nat.max_l by lia.
        destruct Hhigh as [->|(sh & Hsh & Hnp)]; [lia|].
        by eapply updateStep_not_pending.
      * by rewrite Nat.max_r by lia.
  - destruct (IH high steps Hhigh Hord) as [n Hn].
    exists (S n). simpl.
    change (replay ((stepId, st) :: take n calls) steps)
      with (replay (take n calls) (updateStep stepId st steps)).
    by rewrite updateStep_unknown.
Qed.

(** ** The stream consumer *)

Lemma set_steps_same w : set_steps (λ _, steps w) w = w.
Proof. by destruct w. Qed.

Section Consumer.
Context `{Platform}.

Lemma handleLine_returns {E} line w :
  handleLine (E:=E) line w = (afterLine w line, inl tt).
Proof.
  unfold afterLine, exec, handleLine.
  destruct (startsWith (js "data: ") line); [|done].
  unfold try_catch, perform.
  by destruct (mbind (M:=M ParseError) handleRecord (parseJSON (slice 6 line)) w)
    as [w1 [[]|e]].
Qed.

Lemma forOf_handleLine {E} lines w :
  forOf lines (handleLine (E:=E)) w = (foldl afterLine w lines, inl tt).
Proof.
  revert w. induction lines as [|line lines IH]; intros w; [done|].
  simpl. unfold mbind, M_bind. rewrite handleLine_returns. apply IH.
Qed.

Lemma decode_app d value value' :
  decode d (value ++ value') =
  let '(d1, text) := decode d value in
  let '(d2, text') := decode d1 value' in
  (d2, text ++ text').
Proof.
  revert d. induction value as [|b value IH]; intros d; simpl.
  - by destruct (decode d value').
  - destruct (decode_byte d b) as [d0 t0]. rewrite IH.
    destruct (decode d0 value) as [d1 t1], (decode d1 value') as [d2 t2].
    by rewrite (assoc_L (++)).
Qed.
End Consumer.

Lemma split_nonempty sep s : split sep s ≠ [].
Proof.
  destruct s as [|c s]; simpl; [done|].
  destruct (c =? sep)%N; [done|]. by destruct (split sep s).
Qed.

Lemma pop_or_empty_last lines : pop_or_empty lines = default [] (list.last lines).
Proof.
  unfold pop_or_empty. destruct (list.last lines) as [l|]; [|done].
  by case_bool_decide.
Qed.

(** Splitting a text that grows: the complete lines stay, and the open
    line is split on with what arrives. *)
Lemma split_app sep s t :
  split sep (s ++ t) =
  removelast (split sep s) ++ split sep (pop_or_empty (split sep s) ++ t).
Proof.
  rewrite pop_or_empty_last.
  induction s as [|c s IH]; [done|]. simpl.
  destruct (c =? sep)%N eqn:Hc.
  - rewrite IH. pose proof (split_nonempty sep s) as Hne.
    destruct (split sep s) as [|l ls]; [done|]. done.
  - rewrite IH. pose proof (split_nonempty sep s) as Hne.
    destruct (split sep s) as [|l ls]; [done|].
    destruct ls as [|l' ls]; simpl; [|done].
    by rewrite Hc.
Qed.

Lemma split_pop_or_empty sep s :
  split sep (pop_or_empty (split sep s)) = [pop_or_empty (split sep s)].
Proof.
  rewrite pop_or_empty_last.
  induction s as [|c s IH]; [done|]. simpl.
  pose proof (split_nonempty sep s) as Hne.
  destruct (c =? sep)%N eqn:Hc.
  - destruct (split sep s) as [|l ls]; done.
  - destruct (split sep s) as [|l ls]; [done|].
    destruct ls as [|l' ls]; [|done]. simpl in *.
    rewrite Hc, IH. done.
Qed.

Lemma pop_or_empty_app lines lines' :
  lines' ≠ [] → pop_or_empty (lines ++ lines') = pop_or_empty lines'.
Proof.
  intros Hne. rewrite !pop_or_empty_last, last_app.
  destruct (list.last lines') eqn:Hlast; [done|]. by apply last_None in Hlast.
Qed.

Section Chunks.
Context `{Platform}.

Lemma readLoop_cons value chunks' ending d buf w :
  readLoop (value :: chunks') ending d buf w =
  readLoop chunks' ending (decode d value).1
    (pop_or_empty (split 10 (buf ++ (decode d value).2)))
    (foldl afterLine w (removelast (split 10 (buf ++ (decode d value).2)))).
Proof.
  simpl. destruct (decode d value) as [d1 text]. simpl.
  unfold mbind, M_bind. by rewrite forOf_handleLine.
Qed.

(** Two deliveries in a row are read as one delivery of their bytes. *)
Lemma readLoop_merge c1 c2 rest ending d buf w :
  readLoop (c1 :: c2 :: rest) ending d buf w =
  readLoop ((c1 ++ c2) :: rest) ending d buf w.
Proof.
  rewrite !readLoop_cons. rewrite decode_app.
  destruct (decode d c1) as [d1 t1]. simpl.
  destruct (decode d1 c2) as [d2 t2]. simpl.
  rewrite (assoc_L (++) buf t1 t2), (split_app 10 (buf ++ t1) t2).
  pose proof (split_nonempty 10 (pop_or_empty (split 10 (buf ++ t1)) ++ t2)) as Hne.
  rewrite removelast_app by done. rewrite foldl_app.
  by rewrite pop_or_empty_app.
Qed.

(** An empty delivery changes nothing while the buffer holds no newline. *)
Lemma readLoop_empty_chunk rest ending d buf w :
  split 10 buf = [buf] →
  readLoop ([] :: rest) ending d buf w = readLoop rest ending d buf w.
Proof.
  intros Hbuf. rewrite readLoop_cons. simpl. rewrite (right_id_L [] (++)), Hbuf.
  simpl. by rewrite pop_or_empty_last.
Qed.

Lemma readLoop_concat chunks : ∀ ending d buf w,
  split 10 buf = [buf] →
  readLoop chunks ending d buf w = readLoop [concat chunks] ending d buf w.
Proof.
  induction chunks as [|c chunks IH]; intros ending d buf w Hbuf.
  - simpl concat. by rewrite readLoop_empty_chunk.
  - simpl concat. rewrite <- readLoop_merge.
    rewrite (readLoop_cons c chunks), (readLoop_cons c [concat chunks]).
    apply IH, split_pop_or_empty.
Qed.

End Chunks.

Section Records.
Context `{Platform}.

Lemma handleLine_parsed {E} line data w :
  startsWith (js "data: ") line = true →
  JSON_parse (slice 6 line) = Some data →
  handleLine (E:=E) line w =
  try_catch (handleRecord data) (λ parseError, perform (log_console parseError)) w.
Proof.
  intros Hprefix Hparse. unfold handleLine, try_catch, parseJSON.
  rewrite Hprefix, Hparse. done.
Qed.

Lemma handleLine_unparsed {E} line w :
  startsWith (js "data: ") line = true →
  JSON_parse (slice 6 line) = None →
  handleLine (E:=E) line w = (log_console SyntaxError w, inl tt).
Proof.
  intros Hprefix Hparse. unfold handleLine, try_catch, parseJSON.
  rewrite Hprefix, Hparse. done.
Qed.

Lemma handleRecord_step_start members w :
  member (js "type") members = Some (JStr (js "step_start")) →
  handleRecord (JObj members) w =
  callUpdateStep (member (js "step") members) to_active w.
Proof.
  intros Htype. unfold handleRecord, mbind, M_bind, readProperty, mret, M_ret.
  rewrite Htype. done.
Qed.

Lemma handleRecord_step_complete members w :
  member (js "type") members = Some (JStr (js "step_complete")) →
  handleRecord (JObj members) w =
  callUpdateStep (member (js "step") members) to_completed w.
Proof.
  intros Htype. unfold handleRecord, mbind, M_bind, readProperty, mret, M_ret.
  rewrite Htype. done.
Qed.

Lemma handleRecord_error members w :
  member (js "type") members = Some (JStr (js "error")) →
  handleRecord (JObj members) w =
  (w, inr (ServerError (member (js "message") members))).
Proof.
  intros Htype. unfold handleRecord, mbind, M_bind, readProperty, mret, M_ret.
  rewrite Htype. done.
Qed.

(** An [error] record ends in the [catch] around [JSON.parse]: it is logged
    like a malformed record and the page's state stays as it was. *)
Lemma error_record_is_logged {E} line members w :
  startsWith (js "data: ") line = true →
  JSON_parse (slice 6 line) = Some (JObj members) →
  member (js "type") members = Some (JStr (js "error")) →
  handleLine (E:=E) line w =
  (log_console (ServerError (member (js "message") members)) w, inl tt).
Proof.
  intros Hprefix Hparse Htype.
  rewrite (handleLine_parsed _ _ _ Hprefix Hparse). unfold try_catch.
  by rewrite handleRecord_error.
Qed.

Lemma step_record_updates line members stepId st w :
  startsWith (js "data: ") line = true →
  JSON_parse (slice 6 line) = Some (JObj members) →
  member (js "type") members =
    Some (JStr (match st with
                | to_active => js "step_start"
                | to_completed => js "step_complete"
                end)) →
  member (js "step") members = Some (JStr stepId) →
  afterLine w line = set_steps (updateStep stepId st) w.
Proof.
  intros Hprefix Hparse Htype Hstep. unfold afterLine, exec.
  rewrite (handleLine_parsed _ _ _ Hprefix Hparse). unfold try_catch.
  destruct st.
  - rewrite handleRecord_step_start by done. by rewrite Hstep.
  - rewrite handleRecord_step_complete by done. by rewrite Hstep.
Qed.

End Records.

(** ** Claims about [updateStep] *)

(** C2, as stated, fails: after [step_complete] for the first step has
    completed it, a late [step_start] for the same step sets it back to
    [active]. *)
Lemma C2_late_step_start_reactivates :
  ¬ (∀ calls stepId st i s s',
       replay calls initialSteps !! i = Some s →
       status s = completed →
       updateStep stepId st (replay calls initialSteps) !! i = Some s' →
       status s' = completed).
Proof.
  intros Hclaim.
  pose (calls := [(js "fetch_enviro_data", to_completed)]).
  assert (∃ s, replay calls initialSteps !! 0 = Some s ∧ status s = completed)
    as (s & Hs & Hcompleted) by (eexists; split; reflexivity).
  assert (∃ s', updateStep (js "fetch_enviro_data") to_active
                  (replay calls initialSteps) !! 0 = Some s'
                ∧ status s' = active)
    as (s' & Hs' & Hactive) by (eexists; split; reflexivity).
  specialize (Hclaim _ _ _ _ _ _ Hs Hcompleted Hs'). congruence.
Qed.

(** C2, amended: no call of [updateStep] sets a step back to [pending] or
    changes its id or name, and a completed step stays completed under
    every call but one: [updateStep(id, 'active')] for the step's own id
    sets it, like any step it aims at, to [active]. *)
Theorem C2_completed_step_changes_only_by_own_step_start
    stepId st (steps : list Step) i s :
  steps !! i = Some s →
  ∃ s', updateStep stepId st steps !! i = Some s'
    ∧ id s' = id s ∧ name s' = name s
    ∧ (status s ≠ pending → status s' ≠ pending)
    ∧ (st = to_active → findIndex stepId steps = Some i → status s' = active)
    ∧ (status s = completed →
       st = to_completed ∨ findIndex stepId steps ≠ Some i →
       status s' = completed).
Proof.
  intros Hs. destruct (findIndex stepId steps) as [k|] eqn:Hk.
  - rewrite (updateStep_lookup _ _ _ _ _ Hk), Hs. simpl.
    eexists; split; [done|].
    destruct (decide (i < k)).
    { split_and!; try done. intros _ [=]. lia. }
    destruct (decide (i = k)) as [->|].
    { destruct st; simpl; split_and!; try done.
      by intros _ [|]. }
    split_and!; try done. intros _ [=]. done.
  - rewrite updateStep_unknown by done. exists s. by split_and!.
Qed.

Lemma C2_completed_step_changes_only_by_own_step_start_witness :
  let steps := updateStep (js "fetch_enviro_data") to_completed initialSteps in
  let s := {| id := js "fetch_enviro_data"; name := js "Fetching Data...";
              status := completed |} in
  (steps !! 0 = Some s
   ∧ status <$> updateStep (js "fetch_enviro_data") to_active steps
     = [active; pending; pending; pending])
  ∧ ∃ s', updateStep (js "fetch_enviro_data") to_active steps !! 0 = Some s'
    ∧ id s' = id s ∧ name s' = name s
    ∧ (status s ≠ pending → status s' ≠ pending)
    ∧ (to_active = to_active →
       findIndex (js "fetch_enviro_data") steps = Some 0 → status s' = active)
    ∧ (status s = completed →
       to_active = to_completed
       ∨ findIndex (js "fetch_enviro_data") steps ≠ Some 0 →
       status s' = completed).
Proof.
  cbv zeta. split; [by split|].
  apply (C2_completed_step_changes_only_by_own_step_start
           (js "fetch_enviro_data") to_active
           (updateStep (js "fetch_enviro_data") to_completed initialSteps) 0).
  reflexivity.
Defined.

(** C8, as stated, fails: [step_start] for the second step followed by
    [step_start] for the first leaves both [active]. *)
Lemma C8_out_of_order_starts_leave_two_active :
  ¬ (∀ calls,
       at_most_one_active (replay calls initialSteps)
       ∧ earlier_completed (replay calls initialSteps)).
Proof.
  intros Hclaim.
  destruct (Hclaim [(js "analyze_risk", to_active);
                    (js "fetch_enviro_data", to_active)]) as [Hone _].
  assert (0 = 1) as Heq; [|done].
  eapply Hone; reflexivity.
Qed.

(** C8, amended: the step lists reached from the all-pending list have at
    most one active step, and every step before an active or completed
    step completed, after every call of a sequence exactly when no
    [updateStep(id, 'active')] of the sequence aims at a step before the
    target of an earlier call.  Calls with ['completed'] may come late,
    twice or out of order, and calls with an unknown id do not count. *)
Theorem C8_progress_shape_iff_starts_in_order calls :
  starts_in_order 0 initialSteps calls = true ↔
  ∀ n, at_most_one_active (replay (take n calls) initialSteps)
       ∧ earlier_completed (replay (take n calls) initialSteps).
Proof.
  split.
  - intros Hord n.
    destruct (replay_starts_in_order (take n calls) 0 initialSteps
                progress_at_initial (starts_in_order_take calls n 0 _ Hord))
      as [k Hk].
    by eapply progress_at_invariant.
  - intros Hshape.
    destruct (starts_in_order 0 initialSteps calls) eqn:Hord; [done|].
    destruct (replay_start_out_of_order calls 0 initialSteps (or_introl eq_refl) Hord)
      as [n Hn].
    by destruct (Hshape n) as [_ ?].
Qed.

Lemma C8_progress_shape_iff_starts_in_order_witness :
  let calls := [(js "fetch_enviro_data", to_active);
                (js "analyze_risk", to_active);
                (js "fetch_enviro_data", to_completed);
                (js "analyze_risk", to_completed);
                (js "analyze_risk", to_completed);
                (js "warmup", to_active);
                (js "generate_advice", to_active)] in
  starts_in_order 0 initialSteps calls = true
  ∧ status <$> replay calls initialSteps = [completed; completed; active; pending]
  ∧ ∀ n, at_most_one_active (replay (take n calls) initialSteps)
         ∧ earlier_completed (replay (take n calls) initialSteps).
Proof.
  cbv zeta. split; [reflexivity|]. split; [reflexivity|].
  apply C8_progress_shape_iff_starts_in_order. reflexivity.
Defined.

(** ** Claims about the stream consumer *)

Lemma trimStart_blank s : forallb isWhiteSpace s = true → trimStart s = [].
Proof.
  induction s as [|c s IH]; [done|]. simpl.
  intros [Hc Hs]%andb_true_iff. rewrite Hc. by apply IH.
Qed.

Lemma trim_blank s : forallb isWhiteSpace s = true → trim s = [].
Proof. intros Hs. unfold trim. by rewrite trimStart_blank. Qed.

Lemma initialSteps_pending : Forall (λ s, status s = pending) initialSteps.
Proof. repeat constructor. Qed.

Section Claims.
Context `{Platform}.

Lemma step_record_lookup line members stepId st w i j :
  startsWith (js "data: ") line = true →
  JSON_parse (slice 6 line) = Some (JObj members) →
  member (js "type") members = Some (JStr (event_type st)) →
  member (js "step") members = Some (JStr stepId) →
  findIndex stepId (steps w) = Some i →
  j ≤ i →
  ∃ s s', steps w !! j = Some s
          ∧ steps (afterLine w line) !! j = Some s'
          ∧ id s' = id s ∧ name s' = name s
          ∧ status s' = if decide (j < i) then completed else status_of st.
Proof.
  intros Hprefix Hparse Htype Hstep Hi Hj.
  rewrite (step_record_updates line members stepId st) by done. simpl.
  assert (is_Some (steps w !! j)) as [s Hs].
  { apply lookup_lt_is_Some. apply findIndex_Some in Hi as (s & Hs & _).
    apply lookup_lt_Some in Hs. lia. }
  exists s. rewrite (updateStep_lookup _ _ _ _ _ Hi), Hs. simpl.
  destruct (decide (j < i)); [by eexists|].
  rewrite decide_True by lia. by eexists.
Qed.

(** C3: a [step_start] record whose step id is in the list makes the page
    call [updateStep(id, 'active')]: afterwards that step is [active] and
    every step at an earlier index is [completed], whatever they were
    before, with ids and names as they were. *)
Theorem C3_step_start_activates_and_completes_earlier line members stepId w i :
  startsWith (js "data: ") line = true →
  JSON_parse (slice 6 line) = Some (JObj members) →
  member (js "type") members = Some (JStr (js "step_start")) →
  member (js "step") members = Some (JStr stepId) →
  findIndex stepId (steps w) = Some i →
  steps (afterLine w line) = updateStep stepId to_active (steps w)
  ∧ (∃ s s', steps w !! i = Some s
             ∧ steps (afterLine w line) !! i = Some s'
             ∧ id s' = stepId ∧ name s' = name s
             ∧ status s' = active)
  ∧ (∀ j, j < i →
       ∃ s s', steps w !! j = Some s
               ∧ steps (afterLine w line) !! j = Some s'
               ∧ id s' = id s ∧ name s' = name s
               ∧ status s' = completed).
Proof.
  intros Hprefix Hparse Htype Hstep Hi. split_and!.
  - by rewrite (step_record_updates line members stepId to_active).
  - destruct (step_record_lookup line members stepId to_active w i i)
      as (s & s' & Hs & Hs' & Hid & Hname & Hstatus); [done..|].
    rewrite decide_False in Hstatus by lia.
    exists s, s'. split_and!; try done.
    apply findIndex_Some in Hi as (s0 & Hs0 & Hfound & _). congruence.
  - intros j Hj.
    destruct (step_record_lookup line members stepId to_active w i j)
      as (s & s' & Hs & Hs' & Hid & Hname & Hstatus); [done..|lia|].
    rewrite decide_True in Hstatus by done. by exists s, s'.
Qed.

(** C10: a [step_complete] record whose step id is in the list makes the
    page call [updateStep(id, 'completed')]: afterwards that step and
    every step at an earlier index are [completed], with ids and names as
    they were. *)
Theorem C10_step_complete_completes_earlier_too line members stepId w i :
  startsWith (js "data: ") line = true →
  JSON_parse (slice 6 line) = Some (JObj members) →
  member (js "type") members = Some (JStr (js "step_complete")) →
  member (js "step") members = Some (JStr stepId) →
  findIndex stepId (steps w) = Some i →
  steps (afterLine w line) = updateStep stepId to_completed (steps w)
  ∧ ∀ j, j ≤ i →
      ∃ s s', steps w !! j = Some s
              ∧ steps (afterLine w line) !! j = Some s'
              ∧ id s' = id s ∧ name s' = name s
              ∧ status s' = completed.
Proof.
  intros Hprefix Hparse Htype Hstep Hi. split.
  - by rewrite (step_record_updates line members stepId to_completed).
  - intros j Hj.
    destruct (step_record_lookup line members stepId to_completed w i j)
      as (s & s' & Hs & Hs' & Hid & Hname & Hstatus); [done..|].
    exists s, s'. split_and!; try done. by destruct (decide (j < i)).
Qed.

(** C6: a [step_start] or [step_complete] record whose step id is not in
    the list changes nothing: [updateStep] returns the list as it was, the
    loop body completes without throwing and the page's state, failure
    included, is what it was. *)
Theorem C6_unknown_step_id_is_ignored line members stepId st w :
  startsWith (js "data: ") line = true →
  JSON_parse (slice 6 line) = Some (JObj members) →
  member (js "type") members = Some (JStr (event_type st)) →
  member (js "step") members = Some (JStr stepId) →
  findIndex stepId (steps w) = None →
  updateStep stepId st (steps w) = steps w
  ∧ handleLine (E:=RunError) line w = (w, inl tt).
Proof.
  intros Hprefix Hparse Htype Hstep Hi.
  split; [by apply updateStep_unknown|].
  rewrite handleLine_returns.
  rewrite (step_record_updates line members stepId st) by done.
  rewrite <- (set_steps_same w) at 2. unfold set_steps.
  by rewrite updateStep_unknown.
Qed.

(** C5: a [data: ] line whose payload [JSON.parse] rejects is logged and
    dropped: the loop body completes without throwing, steps, result,
    failure and progress flags are what they were, and the loop goes on
    with the lines that follow. *)
Theorem C5_malformed_record_is_skipped line rest w :
  startsWith (js "data: ") line = true →
  JSON_parse (slice 6 line) = None →
  handleLine (E:=RunError) line w = (log_console SyntaxError w, inl tt)
  ∧ steps (afterLine w line) = steps w
  ∧ riskData (afterLine w line) = riskData w
  ∧ error (afterLine w line) = error w
  ∧ loading (afterLine w line) = loading w
  ∧ isStreaming (afterLine w line) = isStreaming w
  ∧ forOf (line :: rest) (handleLine (E:=RunError)) w
    = forOf rest (handleLine (E:=RunError)) (afterLine w line).
Proof.
  intros Hprefix Hparse.
  assert (afterLine w line = log_console SyntaxError w) as Hafter.
  { unfold afterLine, exec. by rewrite handleLine_unparsed. }
  rewrite Hafter. split_and!; try done.
  - by apply handleLine_unparsed.
  - simpl. unfold mbind, M_bind. by rewrite handleLine_unparsed.
Qed.

(** C4: the world a run leaves depends on the bytes of the response body
    and not on how the deliveries cut them up. *)
Theorem C4_chunk_boundaries_do_not_matter
    (chunks1 chunks2 : list (list byte)) ending loc allergies w :
  concat chunks1 = concat chunks2 →
  exec (fetchRiskData (serve chunks1 ending) loc allergies) w
  = exec (fetchRiskData (serve chunks2 ending) loc allergies) w.
Proof.
  intros Hbytes. run_page.
  destruct (bool_decide (loc = []) || bool_decide (trim loc = [])); [done|].
  destruct (bool_decide (length allergies = 0)); [done|].
  rewrite (readLoop_concat chunks1), (readLoop_concat chunks2) by done.
  by rewrite Hbytes.
Qed.

(** C7, amended: with a blank location or an empty allergy list
    [fetchRiskData] fails at once: a message is stored, the progress flags
    are cleared, no request is sent and the steps, which it has just
    reset, are all pending.  [handleManualSubmit] with an empty allergy
    list returns before it starts a run: it stores its message and sends
    no request, and the steps stay as the run before left them; with a
    blank location and allergies it is that failing [fetchRiskData]. *)
Theorem C7_invalid_input_fails_before_any_request
    net (loc : jsstring) (allergies : list jsstring) w :
  forallb isWhiteSpace loc = true ∨ allergies = [] →
  let w' := exec (fetchRiskData net loc allergies) w in
  (error w' = Some (js "Please enter a location")
   ∨ error w' = Some (js "Please enter allergies"))
  ∧ loading w' = false ∧ isStreaming w' = false
  ∧ requests w' = requests w
  ∧ steps w' = initialSteps
  ∧ Forall (λ s, status s = pending) (steps w')
  ∧ (manualLocation w = loc → allergiesList (manualAllergies w) = allergies →
     let w'' := exec (handleManualSubmit net) w in
     (allergies = [] →
      w'' = set_error (Some (js "Please enter at least one allergy")) w
      ∧ error w'' = Some (js "Please enter at least one allergy")
      ∧ steps w'' = steps w
      ∧ requests w'' = requests w)
     ∧ (allergies ≠ [] → w'' = w')).
Proof.
  intros Hinvalid.
  assert (let w' := exec (fetchRiskData net loc allergies) w in
          (error w' = Some (js "Please enter a location")
           ∨ error w' = Some (js "Please enter allergies"))
          ∧ loading w' = false ∧ isStreaming w' = false
          ∧ requests w' = requests w
          ∧ steps w' = initialSteps) as Hfetch.
  { run_page.
    destruct (bool_decide (loc = []) || bool_decide (trim loc = [])) eqn:Hloc.
    - split_and!; auto.
    - destruct Hinvalid as [Hblank| ->].
      + rewrite (trim_blank _ Hblank) in Hloc.
        rewrite orb_true_r in Hloc. done.
      + split_and!; auto. }
  cbv zeta in *. destruct Hfetch as (Herr & Hload & Hstream & Hreq & Hsteps).
  split_and!; try done.
  - rewrite Hsteps. apply initialSteps_pending.
  - intros Hloc Hlist. unfold exec, handleManualSubmit.
    rewrite Hloc, Hlist. split.
    + intros ->. by split_and!.
    + intros Hne. rewrite bool_decide_eq_false_2; [done|]. by destruct allergies.
Qed.

(** The steps a line leaves depend on the steps it finds only. *)
Lemma afterLine_steps_ext line w1 w2 :
  steps w1 = steps w2 → steps (afterLine w1 line) = steps (afterLine w2 line).
Proof.
  intros Hsteps. unfold afterLine, exec, handleLine.
  destruct (startsWith (js "data: ") line); [|done].
  unfold try_catch, parseJSON.
  destruct (JSON_parse (slice 6 line)) as [data|]; [|done].
  cbv [mbind M_bind mret M_ret].
  destruct data as [|b|lexeme|s|items|members]; try done.
  unfold handleRecord, readProperty, callUpdateStep, setSteps, setRiskData,
    setIsStreaming, setLoading, perform.
  cbv [mbind M_bind mret M_ret mthrow M_throw].
  repeat match goal with
         | |- context [if strictEq ?v ?t then _ else _] => destruct (strictEq v t)
         end; simpl; by rewrite ?Hsteps.
Qed.

Lemma readLoop_steps_ext chunks ending : ∀ d buf w1 w2,
  steps w1 = steps w2 →
  steps (exec (readLoop chunks ending d buf) w1)
  = steps (exec (readLoop chunks ending d buf) w2).
Proof.
  induction chunks as [|value chunks IH]; intros d buf w1 w2 Hsteps.
  - by destruct ending.
  - unfold exec in *. rewrite !readLoop_cons. apply IH.
    generalize (removelast (split 10 (buf ++ (decode d value).2))).
    intros lines. revert w1 w2 Hsteps.
    induction lines as [|line lines IHl]; intros w1 w2 Hsteps; [done|].
    simpl. by apply IHl, afterLine_steps_ext.
Qed.

(** C9: [resetSteps] sets the list to the four steps, all pending, in
    pipeline order, and [fetchRiskData] calls it before it reads anything:
    whatever the steps were before the run, the steps after it are those
    the read loop leaves when it starts from the reset list, and the reset
    list itself when the run fails before it reads. *)
Theorem C9_new_run_starts_from_reset_steps
    net (loc : jsstring) (allergies : list jsstring) w w0 :
  steps w0 = initialSteps →
  steps (exec (resetSteps (E:=RunError)) w) = initialSteps
  ∧ id <$> initialSteps
    = [js "fetch_enviro_data"; js "analyze_risk"; js "generate_advice"; js "done"]
  ∧ status <$> initialSteps = [pending; pending; pending; pending]
  ∧ steps (exec (fetchRiskData net loc allergies) w)
    = if bool_decide (loc = []) || bool_decide (trim loc = [])
      then initialSteps
      else if bool_decide (length allergies = 0) then initialSteps
      else
        match net {| location := trim loc; allergies := allergies |} with
        | FetchRejects _ => initialSteps
        | FetchResolves response =>
            if negb (ok response) then initialSteps
            else
              match body response with
              | None => initialSteps
              | Some reader =>
                  steps (exec (readLoop (chunks reader) (ending reader)
                                 new_TextDecoder emptyString) w0)
              end
        end.
Proof.
  intros Hw0. split_and!; [reflexivity..|].
  run_page.
  destruct (bool_decide (loc = []) || bool_decide (trim loc = [])); [done|].
  destruct (bool_decide (length allergies = 0)); [done|].
  destruct (net _) as [e|response]; [done|].
  destruct (ok response); simpl; [|done].
  destruct (body response) as [reader|]; [|done].
  match goal with
  | |- context [readLoop ?c ?e ?d ?b ?W] =>
      pose proof (readLoop_steps_ext c e d b W w0) as Hext;
      unfold exec in Hext; rewrite <- Hext by (by rewrite Hw0);
      destruct (readLoop c e d b W) as [w' [[]|err]]
  end; done.
Qed.

End Claims.

(** ** The claims in a browser *)

(** C1 (the code departs from it): the server answers with a single
    [error] record.  The [throw new Error(data.message)] of the loop body
    stands inside the [try] whose [catch] logs parse errors, so the error
    never reaches the [catch] that would store it: the run ends with no
    failure stored and both progress flags still set.  The steps are
    untouched, as the claim says. *)
Theorem C1_error_event_is_logged_not_stored :
  let body := bytes_of (stream [record "error" "message" "boom"]) in
  let w := exec (fetchRiskData (serve [body] EndOfStream)
                   (js "Boston, MA") [js "pollen"]) initialWorld in
  error w = None
  ∧ loading w = true
  ∧ isStreaming w = true
  ∧ console w = [ServerError (Some (JStr (js "boom")))]
  ∧ steps w = initialSteps.
Proof. vm_compute. by split_and!. Qed.

Lemma C3_step_start_activates_and_completes_earlier_witness :
  let w := afterLine initialWorld (record "step_start" "step" "fetch_enviro_data") in
  let line := record "step_start" "step" "analyze_risk" in
  let members := [(js "type", JStr (js "step_start"));
                  (js "step", JStr (js "analyze_risk"))] in
  (status <$> steps w = [active; pending; pending; pending]
   ∧ status <$> steps (afterLine w line) = [completed; active; pending; pending]
   ∧ startsWith (js "data: ") line = true
   ∧ JSON_parse (slice 6 line) = Some (JObj members)
   ∧ member (js "type") members = Some (JStr (js "step_start"))
   ∧ member (js "step") members = Some (JStr (js "analyze_risk"))
   ∧ findIndex (js "analyze_risk") (steps w) = Some 1)
  ∧ steps (afterLine w line) = updateStep (js "analyze_risk") to_active (steps w)
  ∧ (∃ s s', steps w !! 1 = Some s
             ∧ steps (afterLine w line) !! 1 = Some s'
             ∧ id s' = js "analyze_risk" ∧ name s' = name s
             ∧ status s' = active)
  ∧ (∀ j, j < 1 →
       ∃ s s', steps w !! j = Some s
               ∧ steps (afterLine w line) !! j = Some s'
               ∧ id s' = id s ∧ name s' = name s
               ∧ status s' = completed).
Proof.
  cbv zeta. split; [by split_and!|].
  apply (C3_step_start_activates_and_completes_earlier
           (record "step_start" "step" "analyze_risk")
           [(js "type", JStr (js "step_start"));
            (js "step", JStr (js "analyze_risk"))]);
    reflexivity.
Defined.

Lemma C10_step_complete_completes_earlier_too_witness :
  let line := record "step_complete" "step" "analyze_risk" in
  let members := [(js "type", JStr (js "step_complete"));
                  (js "step", JStr (js "analyze_risk"))] in
  (status <$> steps (afterLine initialWorld line)
   = [completed; completed; pending; pending]
   ∧ startsWith (js "data: ") line = true
   ∧ JSON_parse (slice 6 line) = Some (JObj members)
   ∧ member (js "type") members = Some (JStr (js "step_complete"))
   ∧ member (js "step") members = Some (JStr (js "analyze_risk"))
   ∧ findIndex (js "analyze_risk") (steps initialWorld) = Some 1)
  ∧ steps (afterLine initialWorld line)
    = updateStep (js "analyze_risk") to_completed (steps initialWorld)
  ∧ ∀ j, j ≤ 1 →
      ∃ s s', steps initialWorld !! j = Some s
              ∧ steps (afterLine initialWorld line) !! j = Some s'
              ∧ id s' = id s ∧ name s' = name s
              ∧ status s' = completed.
Proof.
  cbv zeta. split; [by split_and!|].
  apply (C10_step_complete_completes_earlier_too
           (record "step_complete" "step" "analyze_risk")
           [(js "type", JStr (js "step_complete"));
            (js "step", JStr (js "analyze_risk"))]);
    reflexivity.
Defined.

Lemma C6_unknown_step_id_is_ignored_witness :
  let line := record "step_complete" "step" "warmup" in
  let members := [(js "type", JStr (js "step_complete"));
                  (js "step", JStr (js "warmup"))] in
  (startsWith (js "data: ") line = true
   ∧ JSON_parse (slice 6 line) = Some (JObj members)
   ∧ member (js "type") members = Some (JStr (event_type to_completed))
   ∧ member (js "step") members = Some (JStr (js "warmup"))
   ∧ findIndex (js "warmup") (steps initialWorld) = None)
  ∧ updateStep (js "warmup") to_completed (steps initialWorld)
    = steps initialWorld
  ∧ handleLine (E:=RunError) line initialWorld = (initialWorld, inl tt).
Proof.
  cbv zeta. split; [by split_and!|].
  apply (C6_unknown_step_id_is_ignored
           (record "step_complete" "step" "warmup")
           [(js "type", JStr (js "step_complete"));
            (js "step", JStr (js "warmup"))]);
    reflexivity.
Defined.

Lemma C5_malformed_record_is_skipped_witness :
  let line := js "data: {oops" in
  let rest := [record "step_start" "step" "fetch_enviro_data"] in
  let w := initialWorld in
  (startsWith (js "data: ") line = true
   ∧ JSON_parse (slice 6 line) = None)
  ∧ handleLine (E:=RunError) line w = (log_console SyntaxError w, inl tt)
  ∧ steps (afterLine w line) = steps w
  ∧ riskData (afterLine w line) = riskData w
  ∧ error (afterLine w line) = error w
  ∧ loading (afterLine w line) = loading w
  ∧ isStreaming (afterLine w line) = isStreaming w
  ∧ forOf (line :: rest) (handleLine (E:=RunError)) w
    = forOf rest (handleLine (E:=RunError)) (afterLine w line).
Proof.
  cbv zeta. split; [by split_and!|].
  apply C5_malformed_record_is_skipped; reflexivity.
Defined.

Lemma C4_chunk_boundaries_do_not_matter_witness :
  let bytes :=
    bytes_of (stream [record "step_start" "step" "fetch_enviro_data";
                      record "step_complete" "step" "fetch_enviro_data";
                      record "result" "data" "fine"]) in
  let at_once := [bytes] in
  let byte_by_byte := map (λ b, [b]) bytes in
  concat at_once = concat byte_by_byte
  ∧ exec (fetchRiskData (serve at_once EndOfStream)
            (js "Boston, MA") [js "pollen"]) initialWorld
    = exec (fetchRiskData (serve byte_by_byte EndOfStream)
              (js "Boston, MA") [js "pollen"]) initialWorld.
Proof.
  cbv zeta. split; [reflexivity|].
  apply C4_chunk_boundaries_do_not_matter. reflexivity.
Defined.

(** C7, as stated, fails for [handleManualSubmit]: a run is cut off by a
    rejected read after it has completed the first step and started the
    second; the form is shown again, and when it is submitted with an
    allergy text that holds no term the message is stored and the steps
    stay as that run left them, not pending. *)
Lemma C7_blank_allergies_leave_old_steps :
  let body :=
    bytes_of (stream [record "step_start" "step" "fetch_enviro_data";
                      record "step_complete" "step" "fetch_enviro_data";
                      record "step_start" "step" "analyze_risk"]) in
  let interrupted :=
    exec (fetchRiskData (serve [body] (ReadRejects (Error (js "network error"))))
            (js "Boston, MA") [js "pollen"]) initialWorld in
  let w := set_manualAllergies (js " , ") interrupted in
  let w' := exec (handleManualSubmit (serve [] EndOfStream)) w in
  allergiesList (manualAllergies w) = []
  ∧ loading w = false ∧ isStreaming w = false
  ∧ error w' = Some (js "Please enter at least one allergy")
  ∧ status <$> steps w' = [completed; active; pending; pending]
  ∧ ¬ Forall (λ s, status s = pending) (steps w').
Proof.
  cbv zeta. split_and!; [reflexivity..|].
  intros Hpending.
  eapply (Forall_lookup_1 _ _ 0) in Hpending; [|reflexivity].
  vm_compute in Hpending. discriminate.
Qed.

Lemma C7_invalid_input_fails_before_any_request_witness :
  let net := serve [] EndOfStream in
  let loc := emptyString in
  let allergies := [js "pollen"; js "dust"] in
  let w := initialWorld in
  (forallb isWhiteSpace loc = true ∨ allergies = [])
  ∧ let w' := exec (fetchRiskData net loc allergies) w in
    (error w' = Some (js "Please enter a location")
     ∨ error w' = Some (js "Please enter allergies"))
    ∧ loading w' = false ∧ isStreaming w' = false
    ∧ requests w' = requests w
    ∧ steps w' = initialSteps
    ∧ Forall (λ s, status s = pending) (steps w')
    ∧ (manualLocation w = loc → allergiesList (manualAllergies w) = allergies →
       let w'' := exec (handleManualSubmit net) w in
       (allergies = [] →
        w'' = set_error (Some (js "Please enter at least one allergy")) w
        ∧ error w'' = Some (js "Please enter at least one allergy")
        ∧ steps w'' = steps w
        ∧ requests w'' = requests w)
       ∧ (allergies ≠ [] → w'' = w')).
Proof.
  cbv zeta. split; [by left|].
  apply (C7_invalid_input_fails_before_any_request
           (serve [] EndOfStream) emptyString [js "pollen"; js "dust"] initialWorld).
  by left.
Defined.

Lemma C9_new_run_starts_from_reset_steps_witness :
  let finished :=
    exec (fetchRiskData
            (serve [bytes_of (stream [record "step_complete" "step" "done"])]
               EndOfStream)
            (js "Boston, MA") [js "pollen"]) initialWorld in
  let reader :=
    {| chunks := [bytes_of (stream [record "step_start" "step" "fetch_enviro_data"])];
       ending := EndOfStream |} in
  let response := {| ok := true; statusText := js "OK"; body := Some reader |} in
  let net : Network := λ _, FetchResolves response in
  let loc := js "Austin, TX" in
  let allergies := [js "dust"] in
  (steps initialWorld = initialSteps
   ∧ status <$> steps finished = [completed; completed; completed; completed]
   ∧ status <$> steps (exec (fetchRiskData net loc allergies) finished)
     = [active; pending; pending; pending])
  ∧ steps (exec (resetSteps (E:=RunError)) finished) = initialSteps
  ∧ id <$> initialSteps
    = [js "fetch_enviro_data"; js "analyze_risk"; js "generate_advice"; js "done"]
  ∧ status <$> initialSteps = [pending; pending; pending; pending]
  ∧ steps (exec (fetchRiskData net loc allergies) finished)
    = if bool_decide (loc = []) || bool_decide (trim loc = [])
      then initialSteps
      else if bool_decide (length allergies = 0) then initialSteps
      else
        match net {| location := trim loc; allergies := allergies |} with
        | FetchRejects _ => initialSteps
        | FetchResolves response =>
            if negb (ok response) then initialSteps
            else
              match body response with
              | None => initialSteps
              | Some reader =>
                  steps (exec (readLoop (chunks reader) (ending reader)
                                 new_TextDecoder emptyString) initialWorld)
              end
        end.
Proof.
  cbv zeta. split; [by split_and!|].
  apply (C9_new_run_starts_from_reset_steps
           (λ _, FetchResolves
                   {| ok := true; statusText := js "OK";
                      body := Some {| chunks := [bytes_of (stream [record "step_start" "step" "fetch_enviro_data"])];
                                      ending := EndOfStream |} |})
           (js "Austin, TX") [js "dust"]).
  reflexivity.
Defined.

(** * Further properties *)

(** ** The step state machine *)

Lemma updateStep_names stepId st steps :
  name <$> updateStep stepId st steps = name <$> steps.
Proof.
  destruct (findIndex stepId steps) as [i|] eqn:Hi.
  - apply list_eq. intros j. rewrite !list_lookup_fmap.
    rewrite (updateStep_lookup _ _ _ _ _ Hi).
    destruct (steps !! j) as [s|]; [simpl|done].
    repeat case_decide; done.
  - by rewrite updateStep_unknown.
Qed.

Lemma replay_cons call calls steps :
  replay (call :: calls) steps = replay calls (updateStep call.1 call.2 steps).
Proof. reflexivity. Qed.

Lemma replay_frame calls (steps : list Step) :
  length (replay calls steps) = length steps
  ∧ id <$> replay calls steps = id <$> steps
  ∧ name <$> replay calls steps = name <$> steps.
Proof.
  revert steps. induction calls as [|call calls IH]; intros steps; [done|].
  rewrite replay_cons. destruct (IH (updateStep call.1 call.2 steps)) as (-> & -> & ->).
  by rewrite updateStep_length, updateStep_ids, updateStep_names.
Qed.

(** X1: whatever calls are made, the list keeps its length and the ids and
    names of its steps, in their order: a call changes statuses only. *)
Theorem X1_calls_change_statuses_only calls (steps : list Step) :
  length (replay calls steps) = length steps
  ∧ id <$> replay calls steps = id <$> steps
  ∧ name <$> replay calls steps = name <$> steps.
Proof. apply replay_frame. Qed.

Lemma updateStep_overrides earlier later st st' (steps : list Step) i k :
  findIndex earlier steps = Some i →
  findIndex later steps = Some k →
  i ≤ k →
  updateStep later st' (updateStep earlier st steps) = updateStep later st' steps.
Proof.
  intros Hi Hk Hle. apply list_eq. intros j.
  assert (findIndex later (updateStep earlier st steps) = Some k) as Hk'.
  { by rewrite (findIndex_ids later _ steps (updateStep_ids earlier st steps)). }
  rewrite (updateStep_lookup _ _ _ _ _ Hk'), (updateStep_lookup _ _ _ _ _ Hk).
  rewrite (updateStep_lookup _ _ _ _ _ Hi).
  destruct (steps !! j) as [s|]; [simpl|done]. f_equal.
  repeat case_decide; simplify_eq; try lia; done.
Qed.

(** X2: a call makes every earlier call that aimed at the same step or at a
    step before it redundant. *)
Theorem X2_later_call_overrides_earlier earlier later st st' (steps : list Step) i k :
  findIndex earlier steps = Some i →
  findIndex later steps = Some k →
  i ≤ k →
  updateStep later st' (updateStep earlier st steps) = updateStep later st' steps.
Proof. apply updateStep_overrides. Qed.

Lemma X2_later_call_overrides_earlier_witness :
  (findIndex (js "fetch_enviro_data") initialSteps = Some 0
   ∧ findIndex (js "generate_advice") initialSteps = Some 2
   ∧ 0 ≤ 2)
  ∧ updateStep (js "generate_advice") to_completed
      (updateStep (js "fetch_enviro_data") to_active initialSteps)
    = updateStep (js "generate_advice") to_completed initialSteps.
Proof.
  split; [split_and!; [reflexivity..|lia]|].
  apply (X2_later_call_overrides_earlier _ _ _ _ _ 0 2); [reflexivity..|lia].
Defined.

(** X3: a call made twice in a row does what it does once, known id or
    not. *)
Theorem X3_updateStep_idempotent stepId st (steps : list Step) :
  updateStep stepId st (updateStep stepId st steps) = updateStep stepId st steps.
Proof.
  destruct (findIndex stepId steps) as [i|] eqn:Hi.
  - by apply (updateStep_overrides stepId stepId st st steps i i); [..|lia].
  - by rewrite !(updateStep_unknown stepId st steps Hi).
Qed.

(** X4: a call leaves every step behind its target as it was. *)
Theorem X4_later_steps_untouched stepId st (steps : list Step) i j :
  findIndex stepId steps = Some i →
  i < j →
  updateStep stepId st steps !! j = steps !! j.
Proof.
  intros Hi Hj. rewrite (updateStep_lookup _ _ _ _ _ Hi).
  rewrite !decide_False by lia. by destruct (steps !! j).
Qed.

Lemma X4_later_steps_untouched_witness :
  (findIndex (js "analyze_risk") initialSteps = Some 1 ∧ 1 < 3)
  ∧ updateStep (js "analyze_risk") to_completed initialSteps !! 3
    = initialSteps !! 3.
Proof.
  split; [split; [reflexivity|lia]|].
  apply (X4_later_steps_untouched _ _ _ 1 3); [reflexivity|lia].
Defined.

(** X5: whatever calls came before, [step_complete] for the last step,
    [done], leaves all four steps completed. *)
Theorem X5_completing_done_completes_all calls :
  status <$> replay (calls ++ [(js "done", to_completed)]) initialSteps
  = [completed; completed; completed; completed].
Proof.
  unfold replay. rewrite foldl_app. fold (replay calls initialSteps). simpl.
  destruct (replay_frame calls initialSteps) as (Hlen & Hids & _).
  assert (findIndex (js "done") (replay calls initialSteps) = Some 3) as Hdone.
  { by rewrite (findIndex_ids _ _ initialSteps Hids). }
  apply list_eq. intros j. rewrite list_lookup_fmap.
  rewrite (updateStep_lookup _ _ _ _ _ Hdone).
  destruct (decide (j < 4)) as [Hj|Hj].
  - assert (is_Some (replay calls initialSteps !! j)) as [s ->].
    { apply lookup_lt_is_Some. rewrite Hlen. simpl. lia. }
    simpl. destruct (decide (j < 3)); [|rewrite decide_True by lia];
      by do 4 (destruct j as [|j]; [done|]); lia.
  - rewrite lookup_ge_None_2 by (rewrite Hlen; simpl; lia).
    simpl. by rewrite lookup_ge_None_2 by (simpl; lia).
Qed.

(** ** One line of the stream *)

Lemma strictEq_true v literal :
  strictEq v literal = true → v = Some (JStr literal).
Proof.
  destruct v as [[]|]; try done. simpl. intros Heq.
  apply bool_decide_eq_true in Heq. by subst.
Qed.

Lemma strictEq_false v literal :
  strictEq v literal = false → v ≠ Some (JStr literal).
Proof.
  intros Hne ->. simpl in Hne. by apply bool_decide_eq_false in Hne.
Qed.

Lemma set_steps_id w : set_steps (λ prevSteps, prevSteps) w = w.
Proof. by destruct w. Qed.

Lemma callUpdateStep_not_string {E} (v : jsvalue) st w :
  (∀ stepId, v ≠ Some (JStr stepId)) →
  callUpdateStep (E:=E) v st w = (w, inl tt).
Proof.
  intros Hv. unfold callUpdateStep, setSteps, perform.
  rewrite <- (set_steps_id w) at 2. unfold set_steps. do 2 f_equal.
  destruct v as [[]|]; try done. by destruct (Hv s).
Qed.

Section Lines.
Context `{Platform}.

(** What [handleRecord] does to a value that is not [null]. *)
Lemma handleRecord_cases data w :
  data ≠ JNull →
  handleRecord data w = (w, inl tt)
  ∨ (∃ message, handleRecord data w = (w, inr (ServerError message)))
  ∨ (∃ stepId st, handleRecord data w = (set_steps (updateStep stepId st) w, inl tt))
  ∨ (∃ members,
       data = JObj members
       ∧ member (js "type") members = Some (JStr (js "result"))
       ∧ handleRecord data w
         = (set_loading false
              (set_isStreaming false
                 (set_riskData (member (js "data") members) w)), inl tt)).
Proof.
  intros Hnull.
  destruct data as [|b|lexeme|s|items|members]; [done|by left..|].
  unfold handleRecord, mbind, M_bind, readProperty, mret, M_ret.
  destruct (strictEq (member (js "type") members) (js "step_start")).
  { destruct (member (js "step") members) as [[| | |stepId| |]|] eqn:Hstep;
      try (left; by apply callUpdateStep_not_string).
    right; right; left. by exists stepId, to_active. }
  destruct (strictEq (member (js "type") members) (js "step_complete")).
  { destruct (member (js "step") members) as [[| | |stepId| |]|] eqn:Hstep;
      try (left; by apply callUpdateStep_not_string).
    right; right; left. by exists stepId, to_completed. }
  destruct (strictEq (member (js "type") members) (js "result")) eqn:Hresult.
  { right; right; right. exists members.
    split_and!; [done|by apply strictEq_true|done]. }
  destruct (strictEq (member (js "type") members) (js "error")).
  { right; left. by eexists. }
  by left.
Qed.

(** A line does one of four things: nothing, log what was thrown, update
    the steps, or, for a [result] record only, store the payload and clear
    the progress flags. *)
Lemma afterLine_cases line w :
  afterLine w line = w
  ∨ (∃ e, afterLine w line = log_console e w)
  ∨ (∃ stepId st, afterLine w line = set_steps (updateStep stepId st) w)
  ∨ (∃ members,
       startsWith (js "data: ") line = true
       ∧ JSON_parse (slice 6 line) = Some (JObj members)
       ∧ member (js "type") members = Some (JStr (js "result"))
       ∧ afterLine w line
         = set_loading false
             (set_isStreaming false
                (set_riskData (member (js "data") members) w))).
Proof.
  unfold afterLine, exec, handleLine.
  destruct (startsWith (js "data: ") line); [|by left].
  unfold try_catch, parseJSON.
  destruct (JSON_parse (slice 6 line)) as [data|]; [|right; left; by eexists].
  cbv [mbind M_bind mret M_ret].
  assert (data = JNull ∨ data ≠ JNull) as [->|Hnull]
    by (destruct data; by auto); [right; left; by eexists|].
  destruct (handleRecord_cases data w Hnull)
    as [-> | [[m ->] | [(stepId & st & ->) | (members & -> & Htype & ->)]]].
  - by left.
  - right; left. by eexists.
  - right; right; left. by eexists _, _.
  - right; right; right. by exists members.
Qed.

(** X6: a [result] record stores [data.data], be it [undefined], and
    clears both progress flags; steps and failure stay as they were. *)
Theorem X6_result_record_stores_payload line members w :
  startsWith (js "data: ") line = true →
  JSON_parse (slice 6 line) = Some (JObj members) →
  member (js "type") members = Some (JStr (js "result")) →
  handleLine (E:=RunError) line w = (afterLine w line, inl tt)
  ∧ riskData (afterLine w line) = member (js "data") members
  ∧ loading (afterLine w line) = false
  ∧ isStreaming (afterLine w line) = false
  ∧ steps (afterLine w line) = steps w
  ∧ error (afterLine w line) = error w.
Proof.
  intros Hprefix Hparse Htype. split; [apply handleLine_returns|].
  unfold afterLine, exec.
  rewrite (handleLine_parsed _ _ _ Hprefix Hparse). unfold try_catch.
  unfold handleRecord, mbind, M_bind, readProperty, mret, M_ret.
  rewrite Htype. done.
Qed.


(** X8: a record that parses to anything but [null] and is not an object
    whose [type] is one of the four event names is passed over without a
    log entry. *)
Theorem X8_other_values_are_passed_over line data w :
  startsWith (js "data: ") line = true →
  JSON_parse (slice 6 line) = Some data →
  match data with
  | JNull => False
  | JObj members =>
      Forall (λ name, strictEq (member (js "type") members) name = false)
        [js "step_start"; js "step_complete"; js "result"; js "error"]
  | _ => True
  end →
  handleLine (E:=RunError) line w = (w, inl tt).
Proof.
  intros Hprefix Hparse Hdata.
  rewrite (handleLine_parsed _ _ _ Hprefix Hparse). unfold try_catch.
  destruct data as [|b|lexeme|s|items|members]; try done.
  inversion_clear Hdata as [|? ? H1 Hdata1].
  inversion_clear Hdata1 as [|? ? H2 Hdata2].
  inversion_clear Hdata2 as [|? ? H3 Hdata3].
  inversion_clear Hdata3 as [|? ? H4 _].
  unfold handleRecord, mbind, M_bind, readProperty, mret, M_ret.
  by rewrite H1, H2, H3, H4.
Qed.

(** X9: the record [null] is valid JSON, but reading its [type] throws:
    the [TypeError] is caught and logged like a parse error. *)
Theorem X9_null_record_is_logged line w :
  startsWith (js "data: ") line = true →
  JSON_parse (slice 6 line) = Some JNull →
  handleLine (E:=RunError) line w = (log_console TypeError w, inl tt).
Proof.
  intros Hprefix Hparse.
  by rewrite (handleLine_parsed _ _ _ Hprefix Hparse).
Qed.

(** X10: a [step_start] or [step_complete] record whose [step] is missing
    or is not a string changes nothing. *)
Theorem X10_step_record_without_string_id line members st w :
  startsWith (js "data: ") line = true →
  JSON_parse (slice 6 line) = Some (JObj members) →
  member (js "type") members = Some (JStr (event_type st)) →
  (∀ stepId, member (js "step") members ≠ Some (JStr stepId)) →
  handleLine (E:=RunError) line w = (w, inl tt).
Proof.
  intros Hprefix Hparse Htype Hstep.
  rewrite (handleLine_parsed _ _ _ Hprefix Hparse). unfold try_catch.
  destruct st.
  - rewrite handleRecord_step_start by done.
    by rewrite callUpdateStep_not_string.
  - rewrite handleRecord_step_complete by done.
    by rewrite callUpdateStep_not_string.
Qed.

(** What no line touches. *)
Lemma afterLine_frame line w :
  error (afterLine w line) = error w
  ∧ requests (afterLine w line) = requests w
  ∧ manualLocation (afterLine w line) = manualLocation w
  ∧ manualAllergies (afterLine w line) = manualAllergies w
  ∧ id <$> steps (afterLine w line) = id <$> steps w
  ∧ name <$> steps (afterLine w line) = name <$> steps w
  ∧ console w `prefix_of` console (afterLine w line).
Proof.
  destruct (afterLine_cases line w)
    as [-> | [[e ->] | [(stepId & st & ->) | (members & _ & _ & _ & ->)]]];
    simpl; split_and!; try done.
  - by apply prefix_app_r.
  - apply updateStep_ids.
  - apply updateStep_names.
Qed.

(** X11: no line of the stream, whatever it holds, stores a failure, sends
    a request, touches the form or changes the id or name of a step; the
    console log only grows. *)
Theorem X11_what_no_line_touches line w :
  error (afterLine w line) = error w
  ∧ requests (afterLine w line) = requests w
  ∧ manualLocation (afterLine w line) = manualLocation w
  ∧ manualAllergies (afterLine w line) = manualAllergies w
  ∧ id <$> steps (afterLine w line) = id <$> steps w
  ∧ name <$> steps (afterLine w line) = name <$> steps w
  ∧ console w `prefix_of` console (afterLine w line).
Proof. apply afterLine_frame. Qed.

End Lines.

(** ** Whole runs *)

Lemma trimStart_head s :
  trimStart s = [] ∨ ∃ c rest, trimStart s = c :: rest ∧ isWhiteSpace c = false.
Proof.
  induction s as [|c s IH]; [by left|]. simpl.
  destruct (isWhiteSpace c) eqn:Hc; [done|]. right. by exists c, s.
Qed.

Lemma trimStart_fixed c rest :
  isWhiteSpace c = false → trimStart (c :: rest) = c :: rest.
Proof. intros Hc. simpl. by rewrite Hc. Qed.

Lemma trimStart_suffix s : ∃ blank, s = blank ++ trimStart s.
Proof.
  induction s as [|c s [blank IH]]; [by exists []|]. simpl.
  destruct (isWhiteSpace c); [|by exists []].
  exists (c :: blank). simpl. by f_equal.
Qed.

(** Trimming a trimmed string changes nothing. *)
Lemma trim_idempotent s : trim (trim s) = trim s.
Proof.
  unfold trim, trimEnd.
  destruct (trimStart_head (rev (trimStart s))) as [Hnil|(c & rest & Hrev & Hc)].
  { by rewrite Hnil. }
  assert (trimStart (rev (trimStart (rev (trimStart s)))) = rev (trimStart (rev (trimStart s)))) as Hfront.
  { destruct (trimStart_suffix (rev (trimStart s))) as [blank Hblank].
    assert (trimStart s = rev (trimStart (rev (trimStart s))) ++ rev blank) as Hsplit.
    { rewrite <- rev_app_distr, <- Hblank. by rewrite rev_involutive. }
    destruct (rev (trimStart (rev (trimStart s)))) as [|d front] eqn:Hfront; [done|].
    destruct (trimStart_head s) as [Hnil|(d' & rest' & Hs & Hd')].
    - rewrite Hnil in Hsplit. done.
    - rewrite Hs in Hsplit. simpl in Hsplit. injection Hsplit as -> _.
      by apply trimStart_fixed. }
  rewrite Hfront, rev_involutive, Hrev. by rewrite (trimStart_fixed _ _ Hc).
Qed.

Lemma foldl_afterLine_invariant `{Platform} (P : World → Prop) lines w :
  (∀ w line, P w → P (afterLine w line)) →
  P w → P (foldl afterLine w lines).
Proof.
  intros Hstep. revert w. induction lines as [|line lines IH]; intros w Hw; [done|].
  simpl. by apply IH, Hstep.
Qed.

Section Runs.
Context `{Platform}.

Lemma readLoop_lines chunks ending w :
  readLoop chunks ending new_TextDecoder emptyString w =
  (foldl afterLine w (linesOf chunks),
   match ending with
   | EndOfStream => inl tt
   | ReadRejects e => inr e
   end).
Proof.
  rewrite readLoop_concat by done. rewrite readLoop_cons. unfold linesOf.
  simpl. by destruct ending.
Qed.

(** The world a run leaves, stage by stage. *)
Lemma fetchRiskData_run net (loc : jsstring) (allergies : list jsstring) w :
  exec (fetchRiskData net loc allergies) w =
  if bool_decide (loc = []) || bool_decide (trim loc = [])
  then failed (js "Please enter a location") (started w)
  else if bool_decide (length allergies = 0)
  then failed (js "Please enter allergies") (started w)
  else
    match net {| location := trim loc; allergies := allergies |} with
    | FetchRejects e => failed (failureMessage e) (sent loc allergies w)
    | FetchResolves response =>
        if negb (ok response)
        then failed (js "API error: " ++ statusText response) (sent loc allergies w)
        else
          match body response with
          | None => failed (js "No response body") (sent loc allergies w)
          | Some reader =>
              let read :=
                foldl afterLine (sent loc allergies w) (linesOf (chunks reader)) in
              match ending reader with
              | EndOfStream => read
              | ReadRejects e => failed (failureMessage e) read
              end
          end
    end.
Proof.
  run_page.
  destruct (bool_decide (loc = []) || bool_decide (trim loc = [])); [done|].
  destruct (bool_decide (length allergies = 0)); [done|].
  destruct (net _) as [e|response]; [by destruct e|].
  destruct (ok response); simpl; [|done].
  destruct (body response) as [reader|]; [|done].
  rewrite readLoop_lines. by destruct (ending reader) as [|[]].
Qed.

Lemma valid_input (loc : jsstring) (allergies : list jsstring) :
  trim loc ≠ [] → allergies ≠ [] →
  bool_decide (loc = []) || bool_decide (trim loc = []) = false
  ∧ bool_decide (length allergies = 0) = false.
Proof.
  intros Hloc Hallergies. split.
  - apply orb_false_iff. split; apply bool_decide_eq_false; [|done].
    by intros ->.
  - apply bool_decide_eq_false. by destruct allergies.
Qed.

(** X12: with valid input and a successful response, the run hands to the
    loop body the lines of the decoded body that a newline closes, in
    order, and nothing else.  When the stream ends that is all; when a
    read rejects, the failure is stored and the flags are cleared on top
    of what the lines read so far have done. *)
Theorem X12_run_handles_the_closed_lines
    net (loc : jsstring) (allergies : list jsstring) response reader w :
  trim loc ≠ [] → allergies ≠ [] →
  net {| location := trim loc; allergies := allergies |} = FetchResolves response →
  ok response = true →
  body response = Some reader →
  exec (fetchRiskData net loc allergies) w =
  match ending reader with
  | EndOfStream =>
      foldl afterLine (sent loc allergies w) (linesOf (chunks reader))
  | ReadRejects e =>
      failed (failureMessage e)
        (foldl afterLine (sent loc allergies w) (linesOf (chunks reader)))
  end.
Proof.
  intros Hloc Hallergies Hnet Hok Hbody. rewrite fetchRiskData_run.
  destruct (valid_input loc allergies Hloc Hallergies) as [-> ->].
  by rewrite Hnet, Hok, Hbody.
Qed.

(** X13: when [fetch] rejects, the status is not a success or the response
    has no body, the run fails before it reads a line: the message is
    stored, the flags are cleared, the steps are the reset ones, and
    result and console are untouched.  The one request has gone out. *)
Theorem X13_transport_failure
    net (loc : jsstring) (allergies : list jsstring) outcome w :
  trim loc ≠ [] → allergies ≠ [] →
  net {| location := trim loc; allergies := allergies |} = outcome →
  match outcome with
  | FetchRejects _ => True
  | FetchResolves response => ok response = false ∨ body response = None
  end →
  let w' := exec (fetchRiskData net loc allergies) w in
  error w' = Some match outcome with
                  | FetchRejects e => failureMessage e
                  | FetchResolves response =>
                      if ok response then js "No response body"
                      else js "API error: " ++ statusText response
                  end
  ∧ loading w' = false ∧ isStreaming w' = false
  ∧ steps w' = initialSteps
  ∧ riskData w' = riskData w ∧ console w' = console w
  ∧ requests w' = requests w ++ [{| location := trim loc; allergies := allergies |}].
Proof.
  intros Hloc Hallergies Hnet Houtcome. cbv zeta. rewrite fetchRiskData_run.
  destruct (valid_input loc allergies Hloc Hallergies) as [-> ->].
  rewrite Hnet. destruct outcome as [e|response]; [done|].
  destruct (ok response); simpl; [|done].
  destruct Houtcome as [?| ->]; done.
Qed.

Lemma after_lines_frame lines w :
  let w' := foldl afterLine w lines in
  error w' = error w
  ∧ requests w' = requests w
  ∧ manualLocation w' = manualLocation w
  ∧ manualAllergies w' = manualAllergies w
  ∧ id <$> steps w' = id <$> steps w
  ∧ name <$> steps w' = name <$> steps w
  ∧ console w `prefix_of` console w'.
Proof.
  cbv zeta. revert w. induction lines as [|line lines IH]; intros w; [done|].
  simpl. destruct (IH (afterLine w line)) as (-> & -> & -> & -> & -> & -> & Hc).
  destruct (afterLine_frame line w) as (-> & -> & -> & -> & -> & -> & Hc').
  split_and!; try done. by etrans.
Qed.

Lemma after_lines_flags lines w :
  loading w = isStreaming w →
  loading (foldl afterLine w lines) = isStreaming (foldl afterLine w lines).
Proof.
  apply (foldl_afterLine_invariant (λ w, loading w = isStreaming w)).
  clear. intros w line Hw.
  destruct (afterLine_cases line w)
    as [-> | [[e ->] | [(stepId & st & ->) | (members & _ & _ & _ & ->)]]]; done.
Qed.

End Runs.

(** ** What a run leaves *)

Lemma split_no_separator sep (s : jsstring) : sep ∉ s → split sep s = [s].
Proof.
  induction s as [|c s IH]; [done|]. intros Hsep.
  apply not_elem_of_cons in Hsep as [Hc Hs]. simpl.
  destruct (N.eqb_spec c sep) as [->|_]; [done|]. by rewrite IH.
Qed.

Lemma split_open_line sep (p t : jsstring) :
  split sep p = [p] → sep ∉ t → split sep (p ++ t) = [p ++ t].
Proof.
  revert t. induction p as [|c p IH]; intros t Hp Ht.
  - by apply split_no_separator.
  - simpl in *. destruct (c =? sep)%N; [done|].
    pose proof (split_nonempty sep p) as Hne.
    destruct (split sep p) as [|l ls] eqn:Hsplit; [done|].
    injection Hp as -> ->. by rewrite IH.
Qed.

Section Outcomes.
Context `{Platform}.

(** Bytes that decode to text without a newline add no line. *)
Lemma linesOf_open_tail chunks tail :
  10%N ∉ (decode (decode new_TextDecoder (concat chunks)).1 tail).2 →
  linesOf (chunks ++ [tail]) = linesOf chunks.
Proof.
  intros Htail. unfold linesOf.
  rewrite concat_app. simpl. rewrite (right_id_L [] (++) tail), decode_app.
  destruct (decode new_TextDecoder (concat chunks)) as [d text]. simpl in *.
  destruct (decode d tail) as [d' text']. simpl in *.
  rewrite (split_app 10 text text').
  rewrite (split_open_line 10 _ text' (split_pop_or_empty 10 text) Htail).
  by rewrite removelast_last.
Qed.

(** X14: bytes behind the last newline are never handled: a body that
    goes on with bytes decoding to text without a newline leaves the world
    the shorter body leaves, so a last record that the server does not
    close with a newline is lost. *)
Theorem X14_unclosed_last_record_is_dropped
    chunks tail ending (loc : jsstring) (allergies : list jsstring) w :
  10%N ∉ (decode (decode new_TextDecoder (concat chunks)).1 tail).2 →
  exec (fetchRiskData (serve (chunks ++ [tail]) ending) loc allergies) w
  = exec (fetchRiskData (serve chunks ending) loc allergies) w.
Proof.
  intros Htail. rewrite !fetchRiskData_run. unfold serve. simpl.
  by rewrite linesOf_open_tail.
Qed.

(** X15: when the stream ends and none of its lines was a [result] record,
    the run is left in progress: both flags are still set, no failure is
    stored and the result is the one from before the run. *)
Theorem X15_stream_without_result_leaves_run_loading
    net (loc : jsstring) (allergies : list jsstring) response reader w :
  trim loc ≠ [] → allergies ≠ [] →
  net {| location := trim loc; allergies := allergies |} = FetchResolves response →
  ok response = true →
  body response = Some reader →
  ending reader = EndOfStream →
  (∀ line members,
     line ∈ linesOf (chunks reader) →
     startsWith (js "data: ") line = true →
     JSON_parse (slice 6 line) = Some (JObj members) →
     member (js "type") members ≠ Some (JStr (js "result"))) →
  let w' := exec (fetchRiskData net loc allergies) w in
  loading w' = true ∧ isStreaming w' = true
  ∧ error w' = None ∧ riskData w' = riskData w.
Proof.
  intros Hloc Hallergies Hnet Hok Hbody Hend Hlines. cbv zeta.
  rewrite fetchRiskData_run.
  destruct (valid_input loc allergies Hloc Hallergies) as [-> ->].
  rewrite Hnet, Hok, Hbody, Hend. cbv zeta. simpl negb. cbv iota.
  clear Hend Hbody Hnet Hok.
  assert (∀ lines w0,
            (∀ line members, line ∈ lines →
               startsWith (js "data: ") line = true →
               JSON_parse (slice 6 line) = Some (JObj members) →
               member (js "type") members ≠ Some (JStr (js "result"))) →
            loading (foldl afterLine w0 lines) = loading w0
            ∧ isStreaming (foldl afterLine w0 lines) = isStreaming w0
            ∧ error (foldl afterLine w0 lines) = error w0
            ∧ riskData (foldl afterLine w0 lines) = riskData w0) as Hfold.
  { clear. induction lines as [|line lines IH]; intros w0 Hlines; [done|].
    simpl. destruct (IH (afterLine w0 line)) as (-> & -> & -> & ->).
    { intros l ms Hl. apply Hlines. apply elem_of_cons. by right. }
    destruct (afterLine_cases line w0)
      as [-> | [[e ->] | [(stepId & st & ->) | (members & Hp & Hj & Ht & _)]]];
      try done.
    destruct (Hlines line members); [apply elem_of_cons; by left|done..]. }
  destruct (Hfold (linesOf (chunks reader)) (sent loc allergies w) Hlines)
    as (-> & -> & -> & ->).
  done.
Qed.

(** X16: however a run goes, it ends with [loading] and [isStreaming]
    equal, and with both cleared if a failure is stored; the steps are
    still the four of the pipeline, by id and name and in order; at most
    one request has gone out, with the trimmed location; the console log
    has only grown and the form fields are as they were. *)
Theorem X16_what_every_run_keeps
    net (loc : jsstring) (allergies : list jsstring) w :
  let w' := exec (fetchRiskData net loc allergies) w in
  loading w' = isStreaming w'
  ∧ (error w' = None ∨ loading w' = false)
  ∧ id <$> steps w' = id <$> initialSteps
  ∧ name <$> steps w' = name <$> initialSteps
  ∧ (requests w' = requests w
     ∨ requests w' = requests w
                     ++ [{| location := trim loc; allergies := allergies |}])
  ∧ console w `prefix_of` console w'
  ∧ manualLocation w' = manualLocation w
  ∧ manualAllergies w' = manualAllergies w.
Proof.
  cbv zeta. rewrite fetchRiskData_run.
  destruct (bool_decide (loc = []) || bool_decide (trim loc = []));
    [by split_and!; auto|].
  destruct (bool_decide (length allergies = 0)); [by split_and!; auto|].
  destruct (net _) as [e|response]; [by split_and!; auto|].
  destruct (negb (ok response)); [by split_and!; auto|].
  destruct (body response) as [reader|]; [|by split_and!; auto].
  cbv zeta.
  pose proof (after_lines_frame (linesOf (chunks reader)) (sent loc allergies w))
    as (Herr & Hreq & Hloc & Hall & Hids & Hnames & Hcon).
  pose proof (after_lines_flags (linesOf (chunks reader)) (sent loc allergies w) eq_refl)
    as Hflags.
  destruct (ending reader) as [|e]; simpl;
    rewrite ?Hids, ?Hnames, ?Hreq, ?Hloc, ?Hall; split_and!; auto.
Qed.

(** X17: with valid input exactly one request goes out, whatever the
    network answers; it carries the allergy list as given and the
    location trimmed, so that trimming it again changes nothing. *)
Theorem X17_one_request_with_trimmed_location
    net (loc : jsstring) (terms : list jsstring) w :
  trim loc ≠ [] → terms ≠ [] →
  ∃ request,
    requests (exec (fetchRiskData net loc terms) w) = requests w ++ [request]
    ∧ location request = trim loc
    ∧ trim (location request) = location request
    ∧ allergies request = terms.
Proof.
  intros Hloc Hterms. exists {| location := trim loc; allergies := terms |}.
  split_and!; [|done|apply trim_idempotent|done].
  rewrite fetchRiskData_run.
  destruct (valid_input loc terms Hloc Hterms) as [-> ->].
  destruct (net _) as [e|response]; [done|].
  destruct (negb (ok response)); [done|].
  destruct (body response) as [reader|]; [|done].
  cbv zeta.
  pose proof (after_lines_frame (linesOf (chunks reader)) (sent loc terms w))
    as (_ & Hreq & _).
  by destruct (ending reader); simpl; rewrite Hreq.
Qed.

End Outcomes.

(** ** The manual form *)


Lemma split_at_separator sep (a b : jsstring) :
  split sep (a ++ sep :: b) = split sep a ++ split sep b.
Proof.
  induction a as [|c a IH]; simpl.
  - by rewrite N.eqb_refl.
  - rewrite IH. pose proof (split_nonempty sep a) as Hne.
    destruct (c =? sep)%N; [done|]. by destruct (split sep a).
Qed.





(** X19: the list of a text with a comma in it is the list of what stands
    before the comma followed by the list of what stands behind it. *)
Theorem X19_allergy_list_splits_at_commas (a b : jsstring) :
  allergiesList (a ++ [44%N] ++ b) = allergiesList a ++ allergiesList b.
Proof.
  unfold allergiesList. simpl.
  by rewrite split_at_separator, map_app, list.filter_app.
Qed.

(** ** Status of a reading *)

Lemma number_le_trans x y z :
  number_le x y = true → number_le y z = true → number_le x z = true.
Proof.
  destruct x as [|[]|p], y as [|[]|q], z as [|[]|r]; simpl; try done.
  rewrite !Qle_bool_iff. apply Qle_trans.
Qed.

(** X20: both classifications are monotone: of two readings the greater
    one is never given the milder status. *)
Theorem X20_status_is_monotone x y :
  number_le x y = true →
  severity (getAQIStatus (Some x)) ≤ severity (getAQIStatus (Some y))
  ∧ severity (getPollenStatus (Some x)) ≤ severity (getPollenStatus (Some y)).
Proof.
  intros Hxy. unfold getAQIStatus, getPollenStatus. split.
  - destruct (number_le y (Finite (50 # 1))) eqn:Hy50.
    { by rewrite (number_le_trans _ _ _ Hxy Hy50). }
    destruct (number_le y (Finite (100 # 1))) eqn:Hy100.
    { rewrite (number_le_trans _ _ _ Hxy Hy100).
      destruct (number_le x (Finite (50 # 1))); simpl; lia. }
    destruct (number_le x (Finite (50 # 1))), (number_le x (Finite (100 # 1)));
      simpl; lia.
  - destruct (number_le y (Finite (2 # 1))) eqn:Hy2.
    { by rewrite (number_le_trans _ _ _ Hxy Hy2). }
    destruct (number_le y (Finite (5 # 1))) eqn:Hy5.
    { rewrite (number_le_trans _ _ _ Hxy Hy5).
      destruct (number_le x (Finite (2 # 1))); simpl; lia. }
    destruct (number_le x (Finite (2 # 1))), (number_le x (Finite (5 # 1)));
      simpl; lia.
Qed.

Lemma X20_status_is_monotone_witness :
  number_le (Finite (50 # 1)) (Finite (101 # 2)) = true
  ∧ severity (getAQIStatus (Some (Finite (50 # 1))))
    ≤ severity (getAQIStatus (Some (Finite (101 # 2))))
  ∧ severity (getPollenStatus (Some (Finite (50 # 1))))
    ≤ severity (getPollenStatus (Some (Finite (101 # 2)))).
Proof.
  split; [reflexivity|].
  apply (X20_status_is_monotone (Finite (50 # 1)) (Finite (101 # 2))).
  reflexivity.
Defined.

(** ** The chat window *)





(** ** The further properties in a browser *)

Lemma X6_result_record_stores_payload_witness :
  let line := record "result" "data" "fine" in
  let members := [(js "type", JStr (js "result")); (js "data", JStr (js "fine"))] in
  let w := started initialWorld in
  (startsWith (js "data: ") line = true
   ∧ JSON_parse (slice 6 line) = Some (JObj members)
   ∧ member (js "type") members = Some (JStr (js "result")))
  ∧ handleLine (E:=RunError) line w = (afterLine w line, inl tt)
  ∧ riskData (afterLine w line) = member (js "data") members
  ∧ loading (afterLine w line) = false
  ∧ isStreaming (afterLine w line) = false
  ∧ steps (afterLine w line) = steps w
  ∧ error (afterLine w line) = error w.
Proof.
  cbv zeta. split; [by split_and!|].
  apply (X6_result_record_stores_payload
           (record "result" "data" "fine")
           [(js "type", JStr (js "result")); (js "data", JStr (js "fine"))]);
    reflexivity.
Defined.


Lemma X8_other_values_are_passed_over_witness :
  let line := record "ping" "step" "analyze_risk" in
  let members := [(js "type", JStr (js "ping"));
                  (js "step", JStr (js "analyze_risk"))] in
  (startsWith (js "data: ") line = true
   ∧ JSON_parse (slice 6 line) = Some (JObj members)
   ∧ Forall (λ name, strictEq (member (js "type") members) name = false)
       [js "step_start"; js "step_complete"; js "result"; js "error"])
  ∧ handleLine (E:=RunError) line initialWorld = (initialWorld, inl tt).
Proof.
  cbv zeta.
  assert (Forall (λ name,
            strictEq (member (js "type")
                        [(js "type", JStr (js "ping"));
                         (js "step", JStr (js "analyze_risk"))]) name = false)
            [js "step_start"; js "step_complete"; js "result"; js "error"])
    as Hother by (repeat constructor).
  split; [by split_and!|].
  apply (X8_other_values_are_passed_over
           (record "ping" "step" "analyze_risk")
           (JObj [(js "type", JStr (js "ping"));
                  (js "step", JStr (js "analyze_risk"))]));
    [reflexivity..|exact Hother].
Defined.

Lemma X9_null_record_is_logged_witness :
  (startsWith (js "data: ") (js "data: null") = true
   ∧ JSON_parse (slice 6 (js "data: null")) = Some JNull)
  ∧ handleLine (E:=RunError) (js "data: null") initialWorld
    = (log_console TypeError initialWorld, inl tt).
Proof.
  split; [by split|].
  apply X9_null_record_is_logged; reflexivity.
Defined.

Lemma X10_step_record_without_string_id_witness :
  let line := js "data: {" ++ quoted "type" ++ js ":" ++ quoted "step_start" ++ js "}" in
  let members := [(js "type", JStr (js "step_start"))] in
  (startsWith (js "data: ") line = true
   ∧ JSON_parse (slice 6 line) = Some (JObj members)
   ∧ member (js "type") members = Some (JStr (event_type to_active))
   ∧ ∀ stepId, member (js "step") members ≠ Some (JStr stepId))
  ∧ handleLine (E:=RunError) line initialWorld = (initialWorld, inl tt).
Proof.
  cbv zeta. split; [by split_and!|].
  apply (X10_step_record_without_string_id _
           [(js "type", JStr (js "step_start"))] to_active);
    [reflexivity..|done].
Defined.

Lemma X12_run_handles_the_closed_lines_witness :
  let reader :=
    {| chunks := [bytes_of (stream [record "step_start" "step" "fetch_enviro_data"]);
                  bytes_of (record "step_complete" "step" "fetch_enviro_data")];
       ending := ReadRejects (Error (js "network error")) |} in
  let response := {| ok := true; statusText := js "OK"; body := Some reader |} in
  let net : Network := λ _, FetchResolves response in
  let loc := js " Boston, MA " in
  let terms := [js "pollen"] in
  (trim loc ≠ [] ∧ terms ≠ []
   ∧ net {| location := trim loc; allergies := terms |} = FetchResolves response
   ∧ ok response = true
   ∧ body response = Some reader)
  ∧ exec (fetchRiskData net loc terms) initialWorld =
    match ending reader with
    | EndOfStream =>
        foldl afterLine (sent loc terms initialWorld) (linesOf (chunks reader))
    | ReadRejects e =>
        failed (failureMessage e)
          (foldl afterLine (sent loc terms initialWorld) (linesOf (chunks reader)))
    end.
Proof.
  cbv zeta. split; [by split_and!|].
  pose (reader :=
    {| chunks := [bytes_of (stream [record "step_start" "step" "fetch_enviro_data"]);
                  bytes_of (record "step_complete" "step" "fetch_enviro_data")];
       ending := ReadRejects (Error (js "network error")) |}).
  pose (response := {| ok := true; statusText := js "OK"; body := Some reader |}).
  by apply (X12_run_handles_the_closed_lines (λ _, FetchResolves response)
              (js " Boston, MA ") [js "pollen"] response reader initialWorld).
Defined.

Lemma X13_transport_failure_witness :
  let outcome :=
    FetchResolves {| ok := false; statusText := js "Bad Gateway"; body := None |} in
  let net : Network := λ _, outcome in
  let loc := js "Boston, MA" in
  let terms := [js "pollen"] in
  let w := initialWorld in
  (trim loc ≠ [] ∧ terms ≠ []
   ∧ net {| location := trim loc; allergies := terms |} = outcome
   ∧ (false = false ∨ @None Body = None))
  ∧ let w' := exec (fetchRiskData net loc terms) w in
    error w' = Some (js "API error: " ++ js "Bad Gateway")
    ∧ loading w' = false ∧ isStreaming w' = false
    ∧ steps w' = initialSteps
    ∧ riskData w' = riskData w ∧ console w' = console w
    ∧ requests w' = requests w ++ [{| location := trim loc; allergies := terms |}].
Proof.
  cbv zeta. split; [split_and!; [done..|by left]|].
  apply (X13_transport_failure _ (js "Boston, MA") [js "pollen"]
           (FetchResolves {| ok := false; statusText := js "Bad Gateway";
                             body := None |}));
    [done|done|reflexivity|by left].
Defined.

Lemma X14_unclosed_last_record_is_dropped_witness :
  let chunks := [bytes_of (stream [record "step_start" "step" "fetch_enviro_data"])] in
  let tail := bytes_of (record "result" "data" "fine") in
  (10%N ∉ (decode (decode new_TextDecoder (concat chunks)).1 tail).2)
  ∧ exec (fetchRiskData (serve (chunks ++ [tail]) EndOfStream)
            (js "Boston, MA") [js "pollen"]) initialWorld
    = exec (fetchRiskData (serve chunks EndOfStream)
              (js "Boston, MA") [js "pollen"]) initialWorld.
Proof.
  cbv zeta.
  assert (10%N ∉ (decode
                    (decode new_TextDecoder
                       (concat [bytes_of (stream [record "step_start" "step"
                                                    "fetch_enviro_data"])])).1
                    (bytes_of (record "result" "data" "fine"))).2) as Hopen
    by (apply (bool_decide_unpack _); vm_compute; exact I).
  split; [exact Hopen|].
  by apply X14_unclosed_last_record_is_dropped.
Defined.

Lemma X15_stream_without_result_leaves_run_loading_witness :
  let reader :=
    {| chunks := [bytes_of (stream [record "step_start" "step" "fetch_enviro_data";
                                    js ": keep-alive"])];
       ending := EndOfStream |} in
  let response := {| ok := true; statusText := js "OK"; body := Some reader |} in
  let net : Network := λ _, FetchResolves response in
  let loc := js "Boston, MA" in
  let terms := [js "pollen"] in
  let w := initialWorld in
  (trim loc ≠ [] ∧ terms ≠ []
   ∧ net {| location := trim loc; allergies := terms |} = FetchResolves response
   ∧ ok response = true
   ∧ body response = Some reader
   ∧ ending reader = EndOfStream
   ∧ ∀ line members,
       line ∈ linesOf (chunks reader) →
       startsWith (js "data: ") line = true →
       JSON_parse (slice 6 line) = Some (JObj members) →
       member (js "type") members ≠ Some (JStr (js "result")))
  ∧ let w' := exec (fetchRiskData net loc terms) w in
    loading w' = true ∧ isStreaming w' = true
    ∧ error w' = None ∧ riskData w' = riskData w.
Proof.
  cbv zeta.
  pose (reader :=
    {| chunks := [bytes_of (stream [record "step_start" "step" "fetch_enviro_data";
                                    js ": keep-alive"])];
       ending := EndOfStream |}).
  pose (response := {| ok := true; statusText := js "OK"; body := Some reader |}).
  assert (trim (js "Boston, MA") ≠ []) as Hloc by (vm_compute; discriminate).
  assert ([js "pollen"] ≠ []) as Hterms by discriminate.
  assert (∀ line members,
            line ∈ linesOf (chunks reader) →
            startsWith (js "data: ") line = true →
            JSON_parse (slice 6 line) = Some (JObj members) →
            member (js "type") members ≠ Some (JStr (js "result"))) as Hlines.
  { intros line members Hline Hprefix Hparse.
    assert (linesOf (chunks reader)
            = [record "step_start" "step" "fetch_enviro_data"; js ": keep-alive"])
      as Hl by (vm_compute; reflexivity).
    rewrite Hl in Hline.
    apply elem_of_cons in Hline as [->|Hline].
    - vm_compute in Hparse. injection Hparse as <-.
      apply strictEq_false. vm_compute. reflexivity.
    - apply elem_of_cons in Hline as [Heq|Hline];
        [|exfalso; exact (proj1 (elem_of_nil _) Hline)].
      subst line. vm_compute in Hprefix. discriminate Hprefix. }
  split.
  - split; [exact Hloc|]. split; [exact Hterms|]. split; [reflexivity|].
    split; [reflexivity|]. split; [reflexivity|]. split; [reflexivity|].
    exact Hlines.
  - exact (X15_stream_without_result_leaves_run_loading
             (λ _, FetchResolves response) (js "Boston, MA") [js "pollen"]
             response reader initialWorld Hloc Hterms eq_refl eq_refl eq_refl
             eq_refl Hlines).
Defined.

Lemma X17_one_request_with_trimmed_location_witness :
  let net := serve [] EndOfStream in
  let loc := js "  Boston, MA " in
  let terms := [js "pollen"] in
  (trim loc ≠ [] ∧ terms ≠ [])
  ∧ ∃ request,
      requests (exec (fetchRiskData net loc terms) initialWorld)
      = requests initialWorld ++ [request]
      ∧ location request = trim loc
      ∧ trim (location request) = location request
      ∧ allergies request = terms.
Proof.
  cbv zeta. split; [by split|].
  by apply X17_one_request_with_trimmed_location.
Defined.
